(** * Token load balancer: a shallow embedding of
    [src/services/load_balancer.py] and the properties of its selection
    engine.

    The Python class [LoadBalancer] keeps one piece of state of its own, the
    in-memory usage cache, and talks to collaborators whose code lives in
    other modules (the token manager, its database, the image lock, the
    concurrency manager, the configuration, the clock and the random
    generator).  The embedding therefore threads a world made of the
    collaborators' state and the usage cache through a small state, error
    and event-log monad; every awaited collaborator call, every clock
    reading, every log line and every task creation is recorded as an
    event, in program order. *)

From stdpp Require Import gmap strings list fin_maps.
From Stdlib Require Import ZArith Lia.

Local Open Scope Z_scope.

(** ** Data model *)

(** The fields of [core.models.Token] that the balancer reads.  Timestamps
    ([datetime]) are counted in microseconds, the resolution of Python's
    [datetime] and [timedelta]. *)
Record Token : Type := mkToken {
  token_id : Z;
  email : string;
  is_active : bool;
  expiry_time : option Z;
  plan_type : option string;
  image_enabled : bool;
  video_enabled : bool;
  sora2_supported : bool;
  sora2_cooldown_until : option Z;
  usage_count : option Z
}.

(** Python exceptions, identified by the name of their class or, for the
    ordinary ones, by a message. *)
Definition exn : Type := string.

(** The built-in exception classes that derive from [BaseException]
    without deriving from [Exception]; [CancelledError] is
    [asyncio.CancelledError], raised inside a task that is cancelled while
    it is suspended in an [await]. *)
Definition base_exceptions : list exn :=
  ["CancelledError"; "KeyboardInterrupt"; "SystemExit"; "GeneratorExit"]%string.

(** Whether [except Exception] catches [e]. *)
Definition is_Exception (e : exn) : bool :=
  negb (bool_decide (e ∈ base_exceptions)).

Inductive result (A : Type) : Type :=
| Ok (a : A)
| Raise (e : exn).
Arguments Ok {A} a.
Arguments Raise {A} e.

(** The collaborator calls the balancer awaits. *)
Inductive Call : Type :=
| GetAllTokens
| AutoRefreshExpiringToken (i : Z)
| GetActiveTokens
| RefreshSora2Remaining (i : Z)
| DbGetToken (i : Z)
| IsLocked (i : Z)
| CanUseImage (i : Z)
| CanUseVideo (i : Z)
| GetSchedulingMode
| IncrementUsageCount (i : Z).

Inductive Event : Type :=
| EvAwait (c : Call) (raised : option exn)
                            (* [await collaborator(...)], and the exception
                               it raised, if it did not return *)
| EvNow (z : Z)             (* [datetime.now()] and the value read *)
| EvRandBelow (n k : nat)   (* the draw behind [random.choice] *)
| EvLockAcquire             (* entering [async with self._round_robin_lock] *)
| EvLockRelease             (* leaving it *)
| EvCreateTask (i : Z)      (* [asyncio.create_task(self._async_increment_db_usage(i))] *)
| EvLogInfo                 (* [debug_logger.log_info(...)] *)
| EvLogError (e : exn).     (* [debug_logger.log_error(...)] *)

Global Instance Call_eq_dec : EqDecision Call.
Proof. solve_decision. Defined.

Global Instance Event_eq_dec : EqDecision Event.
Proof. solve_decision. Defined.

(** ** The usage cache (lines 23-29) *)

(** [token.usage_count or 0]: [None] and [0] both give [0]. *)
Definition usage_or_0 (t : Token) : Z :=
  match usage_count t with
  | Some u => if u =? 0 then 0 else u
  | None => 0
  end.

(** [_get_cached_usage]: the entry is written only when the key is absent;
    the value returned is the entry read back. *)
Definition _get_cached_usage (tid db_usage : Z) (cache : gmap Z Z)
  : Z * gmap Z Z :=
  match cache !! tid with
  | Some u => (u, cache)
  | None => (db_usage, <[tid := db_usage]> cache)
  end.

(** [reset_usage_cache]: [self._usage_cache.clear()]. *)
Definition reset_usage_cache (cache : gmap Z Z) : gmap Z Z := ∅.

(** The body of [sync_usage_cache_from_db] once the listing is in hand:
    every listed token overwrites its entry. *)
Fixpoint sync_entries (all_tokens : list Token) (cache : gmap Z Z)
  : gmap Z Z :=
  match all_tokens with
  | [] => cache
  | t :: ts => sync_entries ts (<[token_id t := usage_or_0 t]> cache)
  end.

(** ** The round-robin critical section (lines 66-77) *)

(** The loop of lines 67-70: pair every candidate with its cached usage,
    seeding missing entries on the way. *)
Fixpoint resolve_usage (available : list Token) (cache : gmap Z Z)
  : list (Token * Z) * gmap Z Z :=
  match available with
  | [] => ([], cache)
  | t :: ts =>
      let '(u, cache1) := _get_cached_usage (token_id t) (usage_or_0 t) cache in
      let '(rest, cache2) := resolve_usage ts cache1 in
      ((t, u) :: rest, cache2)
  end.

(** [list.sort(key=lambda x: x[1])] is a stable ascending sort: an element
    is placed in front of the first element whose key is not smaller. *)
Fixpoint insert_by_usage (x : Token * Z) (l : list (Token * Z))
  : list (Token * Z) :=
  match l with
  | [] => [x]
  | y :: l' =>
      if x.2 <=? y.2 then x :: y :: l' else y :: insert_by_usage x l'
  end.

Fixpoint sort_by_usage (l : list (Token * Z)) : list (Token * Z) :=
  match l with
  | [] => []
  | x :: l' => insert_by_usage x (sort_by_usage l')
  end.

(** Lines 67-77 as a function of the candidates and the cache: the selected
    token, the usage it was selected at, and the cache after the increment.
    [None] stands for the [IndexError] of [token_with_usage[0]] on an empty
    list. *)
Definition critical_section (available : list Token) (cache : gmap Z Z)
  : option (Token * Z * gmap Z Z) :=
  let '(token_with_usage, cache1) := resolve_usage available cache in
  match sort_by_usage token_with_usage with
  | [] => None
  | (selected_token, current_usage) :: _ =>
      Some (selected_token, current_usage,
            <[token_id selected_token := current_usage + 1]> cache1)
  end.

(** ** Collaborators *)

(** [ConcurrencyManager], as far as the balancer uses it. *)
Record ConcurrencyManager (S : Type) : Type := mkConcurrencyManager {
  can_use_image : Z -> S -> result bool * S;
  can_use_video : Z -> S -> result bool * S
}.
Arguments can_use_image {S} _ _ _.
Arguments can_use_video {S} _ _ _.

(** Everything [LoadBalancer] is handed or imports.  [S] is the state of
    the outside world (database rows, locks, clock, generator); a call
    returns normally or raises, and may change that state in any way, which
    also accounts for what other coroutines do while this one is suspended
    in an [await]. *)
Record Collaborators (S : Type) : Type := mkCollaborators {
  (* config *)
  at_auto_refresh_enabled : bool;
  (* self.token_manager *)
  get_all_tokens : S -> result (list Token) * S;
  auto_refresh_expiring_token : Z -> S -> result unit * S;
  get_active_tokens : S -> result (list Token) * S;
  refresh_sora2_remaining_if_cooldown_expired : Z -> S -> result unit * S;
  get_scheduling_mode : S -> result string * S;
  increment_usage_count : Z -> S -> result unit * S;
  (* self.token_manager.db *)
  get_token : Z -> S -> result (option Token) * S;
  (* self.token_lock *)
  is_locked : Z -> S -> result bool * S;
  (* self.concurrency_manager, [None] when not configured *)
  concurrency_manager : option (ConcurrencyManager S);
  (* datetime.now() *)
  now : S -> Z * S;
  (* random: the raw draw behind random.choice *)
  randbelow : nat -> S -> nat * S
}.
Arguments at_auto_refresh_enabled {S} _.
Arguments get_all_tokens {S} _ _.
Arguments auto_refresh_expiring_token {S} _ _ _.
Arguments get_active_tokens {S} _ _.
Arguments refresh_sora2_remaining_if_cooldown_expired {S} _ _ _.
Arguments get_scheduling_mode {S} _ _.
Arguments increment_usage_count {S} _ _ _.
Arguments get_token {S} _ _ _.
Arguments is_locked {S} _ _ _.
Arguments concurrency_manager {S} _.
Arguments now {S} _ _.
Arguments randbelow {S} _ _ _.

(** ** The monad *)

(** What a coroutine of the balancer sees and changes: the outside world
    and [self._usage_cache]. *)
Record World (S : Type) : Type := mkWorld {
  ext : S;
  usage_cache : gmap Z Z
}.
Arguments mkWorld {S} _ _.
Arguments ext {S} _.
Arguments usage_cache {S} _.

(** A computation returns a value or raises, leaves a world behind, and
    emits the events it performed. *)
Definition M (S A : Type) : Type := World S -> result A * World S * list Event.

Definition ret {S A} (a : A) : M S A := fun w => (Ok a, w, []).

Definition raise {S A} (e : exn) : M S A := fun w => (Raise e, w, []).

Definition bind {S A B} (m : M S A) (f : A -> M S B) : M S B :=
  fun w =>
    match m w with
    | (Ok a, w1, evs1) =>
        let '(r, w2, evs2) := f a w1 in (r, w2, evs1 ++ evs2)
    | (Raise e, w1, evs1) => (Raise e, w1, evs1)
    end.

Declare Scope monad_scope.
Delimit Scope monad_scope with monad.
Notation "x <- m ;; k" := (bind m (fun x => k))
  (at level 100, m at next level, right associativity) : monad_scope.
Notation "m ;;; k" := (bind m (fun _ => k))
  (at level 100, right associativity) : monad_scope.
Local Open Scope monad_scope.

Definition emit {S} (ev : Event) : M S unit := fun w => (Ok tt, w, [ev]).

(** [await f(...)] on a collaborator: the call runs to completion before
    the coroutine goes on, and an exception it raises is raised here. *)
Definition await {S A} (c : Call) (f : S -> result A * S) : M S A :=
  fun w =>
    let '(r, s) := f (ext w) in
    (r, mkWorld s (usage_cache w),
     [EvAwait c match r with Ok _ => None | Raise e => Some e end]).

Definition log_info {S} : M S unit := emit EvLogInfo.
Definition log_error {S} (e : exn) : M S unit := emit (EvLogError e).

Definition get_cache {S} : M S (gmap Z Z) :=
  fun w => (Ok (usage_cache w), w, []).

Definition set_cache {S} (cache : gmap Z Z) : M S unit :=
  fun w => (Ok tt, mkWorld (ext w) cache, []).

(** A [for x in l:] loop whose body updates the loop's variables. *)
Fixpoint for_each {S A B} (body : A -> B -> M S B) (l : list A) (acc : B)
  : M S B :=
  match l with
  | [] => ret acc
  | x :: xs => acc1 <- body x acc ;; for_each body xs acc1
  end.

(** [try: m except Exception as e: handler(e)]: the handler runs for the
    exceptions of class [Exception]; any other exception goes on to the
    caller. *)
Definition try_except {S A} (m : M S A) (handler : exn -> M S A) : M S A :=
  fun w =>
    match m w with
    | (Ok a, w1, evs1) => (Ok a, w1, evs1)
    | (Raise e, w1, evs1) =>
        if is_Exception e then
          let '(r, w2, evs2) := handler e w1 in (r, w2, evs1 ++ evs2)
        else (Raise e, w1, evs1)
    end.

(** 24 hours in microseconds.  [hours_until_expiry <= 24] compares
    [total_seconds() / 3600] with [24]; at microsecond resolution the
    quotient is at most [24.0] exactly when the difference is at most
    86400 seconds. *)
Definition horizon_24h : Z := 24 * 3600 * 1000000.

Section LoadBalancer.

Context {S : Type} (C : Collaborators S).

Definition clock : M S Z :=
  fun w =>
    let '(z, s) := now C (ext w) in
    (Ok z, mkWorld s (usage_cache w), [EvNow z]).

(** [random.choice(seq)]: [seq[randbelow(len(seq))]], [IndexError] on an
    empty sequence. *)
Definition random_choice (seq : list Token) : M S (option Token) :=
  match seq with
  | [] => raise "IndexError"
  | _ =>
      fun w =>
        let n := length seq in
        let '(k, s) := randbelow C n (ext w) in
        let i := (k mod n)%nat in
        match seq !! i with
        | Some t => (Ok (Some t), mkWorld s (usage_cache w), [EvRandBelow n i])
        | None => (Raise "IndexError", mkWorld s (usage_cache w), [EvRandBelow n i])
        end
  end.

(** [_async_increment_db_usage] (lines 86-91). *)
Definition _async_increment_db_usage (tid : Z) : M S unit :=
  try_except
    (await (IncrementUsageCount tid) (increment_usage_count C tid))
    (fun e => log_error e).

(** [_select_round_robin] (lines 46-84).  No collaborator is awaited
    between the acquisition and the release of the lock; the database
    write is handed to a task created after the release. *)
Definition _select_round_robin (available_tokens : list Token)
    (for_image for_video : bool) : M S (option Token) :=
  match available_tokens with
  | [] => ret None
  | _ =>
      emit EvLockAcquire ;;;
      cache <- get_cache ;;
      match critical_section available_tokens cache with
      | None => emit EvLockRelease ;;; raise "IndexError"
      | Some (selected_token, current_usage, cache1) =>
          set_cache cache1 ;;;
          emit EvLockRelease ;;;
          emit (EvCreateTask (token_id selected_token)) ;;;
          log_info ;;;
          ret (Some selected_token)
      end
  end.

(** Lines 188-195, 206-212 and 216-221: read the scheduling mode and
    select. *)
Definition select_by_mode (tokens : list Token) (for_image for_video : bool)
  : M S (option Token) :=
  scheduling_mode <- await GetSchedulingMode (get_scheduling_mode C) ;;
  if String.eqb scheduling_mode "round_robin"
  then _select_round_robin tokens for_image for_video
  else random_choice tokens.

(** The body of the renewal loop (lines 113-121). *)
Definition renewal_body (token : Token) (refresh_count : nat) : M S nat :=
  match is_active token, expiry_time token with
  | true, Some expiry =>
      z <- clock ;;
      if expiry - z <=? horizon_24h then
        log_info ;;;
        await (AutoRefreshExpiringToken (token_id token))
              (auto_refresh_expiring_token C (token_id token)) ;;;
        ret (Datatypes.S refresh_count)
      else ret refresh_count
  | _, _ => ret refresh_count
  end.

(** Lines 105-126. *)
Definition renewal_pass : M S unit :=
  if at_auto_refresh_enabled C then
    log_info ;;;
    all_tokens <- await GetAllTokens (get_all_tokens C) ;;
    log_info ;;;
    refresh_count <- for_each renewal_body all_tokens 0%nat ;;
    log_info
  else ret tt.

(** The body of the video loop (lines 145-164). *)
Definition video_body (token : Token) (available_tokens : list Token)
  : M S (list Token) :=
  if negb (video_enabled token) then ret available_tokens
  else if negb (sora2_supported token) then ret available_tokens
  else
    token1 <-
      match sora2_cooldown_until token with
      | Some c =>
          z <- clock ;;
          if c <=? z then
            await (RefreshSora2Remaining (token_id token))
                  (refresh_sora2_remaining_if_cooldown_expired C (token_id token)) ;;;
            await (DbGetToken (token_id token)) (get_token C (token_id token))
          else ret (Some token)
      | None => ret (Some token)
      end ;;
    match token1 with
    | Some t =>
        match sora2_cooldown_until t with
        | Some c =>
            z <- clock ;;
            if z <? c then ret available_tokens
            else ret (available_tokens ++ [t])
        | None => ret (available_tokens ++ [t])
        end
    | None => ret available_tokens
    end.

(** The body of the image loop (lines 175-183). *)
Definition image_body (token : Token) (available_tokens : list Token)
  : M S (list Token) :=
  if negb (image_enabled token) then ret available_tokens
  else
    locked <- await (IsLocked (token_id token)) (is_locked C (token_id token)) ;;
    if negb locked then
      match concurrency_manager C with
      | Some cm =>
          ok <- await (CanUseImage (token_id token))
                      (can_use_image cm (token_id token)) ;;
          if negb ok then ret available_tokens
          else ret (available_tokens ++ [token])
      | None => ret (available_tokens ++ [token])
      end
    else ret available_tokens.

(** The body of the video admission loop (lines 200-202). *)
Definition admission_body (cm : ConcurrencyManager S) (token : Token)
    (available_tokens : list Token) : M S (list Token) :=
  ok <- await (CanUseVideo (token_id token)) (can_use_video cm (token_id token)) ;;
  if ok then ret (available_tokens ++ [token]) else ret available_tokens.

(** Lines 171-221: the image branch, or else the video admission branch,
    or else plain selection. *)
Definition workload_stage (for_image_generation for_video_generation : bool)
    (active_tokens : list Token) : M S (option Token) :=
  if for_image_generation then
    available_tokens <- for_each image_body active_tokens [] ;;
    match available_tokens with
    | [] => ret None
    | _ => select_by_mode available_tokens true false
    end
  else
    match for_video_generation, concurrency_manager C with
    | true, Some cm =>
        available_tokens <- for_each (admission_body cm) active_tokens [] ;;
        match available_tokens with
        | [] => ret None
        | _ => select_by_mode available_tokens false true
        end
    | _, _ => select_by_mode active_tokens false for_video_generation
    end.

(** Lines 140-169, then the rest. *)
Definition video_stage (for_image_generation for_video_generation : bool)
    (active_tokens : list Token) : M S (option Token) :=
  if for_video_generation then
    available_tokens <- for_each video_body active_tokens [] ;;
    match available_tokens with
    | [] => ret None
    | _ => workload_stage for_image_generation for_video_generation available_tokens
    end
  else workload_stage for_image_generation for_video_generation active_tokens.

Definition is_pro (token : Token) : bool :=
  match plan_type token with
  | Some p => String.eqb p "chatgpt_pro"
  | None => false
  end.

(** Lines 133-138, then the rest. *)
Definition plan_stage (for_image_generation for_video_generation require_pro : bool)
    (active_tokens : list Token) : M S (option Token) :=
  if require_pro then
    match List.filter is_pro active_tokens with
    | [] => ret None
    | pro_tokens => video_stage for_image_generation for_video_generation pro_tokens
    end
  else video_stage for_image_generation for_video_generation active_tokens.

(** [select_token] (lines 93-221). *)
Definition select_token (for_image_generation for_video_generation require_pro : bool)
  : M S (option Token) :=
  renewal_pass ;;;
  active_tokens <- await GetActiveTokens (get_active_tokens C) ;;
  match active_tokens with
  | [] => ret None
  | _ => plan_stage for_image_generation for_video_generation require_pro active_tokens
  end.

End LoadBalancer.

(** ** Maintenance of the usage cache (lines 31-44) *)

Section CacheMaintenance.

Context {S : Type} (C : Collaborators S).

(** [sync_usage_cache_from_db] (lines 31-39): the listing is awaited, every
    listed token overwrites its entry, and an exception of class
    [Exception] is logged, not raised. *)
Definition sync_usage_cache_from_db : M S unit :=
  try_except
    (all_tokens <- await GetAllTokens (get_all_tokens C) ;;
     cache <- get_cache ;;
     set_cache (sync_entries all_tokens cache) ;;;
     log_info)
    (fun e => log_error e).

End CacheMaintenance.

(** [reset_usage_cache] as the coroutine it is (lines 41-44): the cache is
    cleared, then a line is logged. *)
Definition reset_usage_cache_coro {S : Type} : M S unit :=
  cache <- get_cache ;;
  set_cache (reset_usage_cache cache) ;;;
  log_info.

(** The registry value the last listed token with identifier [k] carries,
    if any token of the listing has that identifier. *)
Definition last_listed (k : Z) (all_tokens : list Token) : option Z :=
  usage_or_0 <$> last (filter (fun t => token_id t = k) all_tokens).

(** The awaited calls of the video filter. *)
Definition is_quota_call (ev : Event) : bool :=
  match ev with
  | EvAwait (RefreshSora2Remaining _) _ | EvAwait (DbGetToken _) _ => true
  | _ => false
  end.

(** The events of a listing for the renewal pass. *)
Definition is_renewal_call (ev : Event) : bool :=
  match ev with
  | EvAwait GetAllTokens _ | EvAwait (AutoRefreshExpiringToken _) _ => true
  | _ => false
  end.

(** The creation of a persistence task. *)
Definition is_create_task (ev : Event) : bool :=
  match ev with EvCreateTask _ => true | _ => false end.

(** The cached counters of the candidates differ by at most [d]. *)
Definition spread_at_most (d : Z) (candidates : list Token)
    (cache : gmap Z Z) : Prop :=
  forall t1 t2 u1 u2,
    t1 ∈ candidates -> t2 ∈ candidates ->
    cache !! token_id t1 = Some u1 -> cache !! token_id t2 = Some u2 ->
    u1 <= u2 + d.

(** Replacing one collaborator and keeping all the others. *)
Definition with_auto_refresh {S} (C : Collaborators S)
    (f : Z -> S -> result unit * S) : Collaborators S :=
  mkCollaborators S
    (at_auto_refresh_enabled C) (get_all_tokens C) f (get_active_tokens C)
    (refresh_sora2_remaining_if_cooldown_expired C) (get_scheduling_mode C)
    (increment_usage_count C) (get_token C) (is_locked C)
    (concurrency_manager C) (now C) (randbelow C).

Definition with_increment_usage_count {S} (C : Collaborators S)
    (f : Z -> S -> result unit * S) : Collaborators S :=
  mkCollaborators S
    (at_auto_refresh_enabled C) (get_all_tokens C)
    (auto_refresh_expiring_token C) (get_active_tokens C)
    (refresh_sora2_remaining_if_cooldown_expired C) (get_scheduling_mode C)
    f (get_token C) (is_locked C)
    (concurrency_manager C) (now C) (randbelow C).

(** Event classes used to read a trace. *)
Definition is_can_use_video (ev : Event) : bool :=
  match ev with EvAwait (CanUseVideo _) _ => true | _ => false end.

Definition is_auto_refresh (ev : Event) : bool :=
  match ev with EvAwait (AutoRefreshExpiringToken _) _ => true | _ => false end.

Definition is_increment (ev : Event) : bool :=
  match ev with EvAwait (IncrementUsageCount _) _ => true | _ => false end.

(** Events of the video filter: clock readings, quota refreshes and
    re-reads. *)
Definition is_video_filter_event (ev : Event) : bool :=
  match ev with
  | EvNow _ | EvAwait (RefreshSora2Remaining _) _
  | EvAwait (DbGetToken _) _ => true
  | _ => false
  end.

(** Events of the image filter: lock and image admission queries. *)
Definition is_image_filter_event (ev : Event) : bool :=
  match ev with
  | EvAwait (IsLocked _) _ | EvAwait (CanUseImage _) _ => true
  | _ => false
  end.

(** Events of the selection itself. *)
Definition is_selection_event (ev : Event) : bool :=
  match ev with
  | EvAwait GetSchedulingMode _ | EvRandBelow _ _ | EvLockAcquire
  | EvLockRelease | EvCreateTask _ | EvLogInfo => true
  | _ => false
  end.

(** Events of the renewal pass. *)
Definition is_renewal_event (ev : Event) : bool :=
  match ev with
  | EvAwait GetAllTokens _ | EvAwait (AutoRefreshExpiringToken _) _
  | EvNow _ | EvLogInfo => true
  | _ => false
  end.

(** An awaited call that raised. *)
Definition is_failure (ev : Event) : bool :=
  match ev with EvAwait _ (Some _) => true | _ => false end.

(** Every awaited call of the run returned. *)
Definition all_returned (evs : list Event) : Prop :=
  Forall (fun ev => is_failure ev = false) evs.

(** The run ended on an awaited call that raised [e]. *)
Definition failed_with (e : exn) (evs : list Event) : Prop :=
  exists c pre, evs = pre ++ [EvAwait c (Some e)] /\ all_returned pre.

(** How a result and the events of its run go together when nothing
    catches or raises an exception on the way: the run returns when all
    its calls returned, and raises what its last call raised. *)
Definition propagates {A} (r : result A) (evs : list Event) : Prop :=
  match r with
  | Ok _ => all_returned evs
  | Raise e => failed_with e evs
  end.

(** Events of the workload stage when it is not the image branch. *)
Definition is_workload_event (ev : Event) : bool :=
  is_image_filter_event ev || is_can_use_video ev || is_selection_event ev.

(** How a stage ends as far as the usage cache goes: with a round-robin
    pick, whose task is the only one created, or with no task and the
    cache as it was. *)
Definition pick_or_untouched {S : Type} (r : result (option Token))
    (w w' : World S) (evs : list Event) : Prop :=
  (exists t pre,
      r = Ok (Some t) /\
      evs = pre ++ [EvLockAcquire; EvLockRelease;
                    EvCreateTask (token_id t); EvLogInfo] /\
      Forall (fun ev => is_create_task ev = false) pre) \/
  (Forall (fun ev => is_create_task ev = false) evs /\
   usage_cache w' = usage_cache w).

(** What the request and the configuration allow a selection to ask. *)
Definition asked_for {S : Type} (C : Collaborators S)
    (for_image_generation for_video_generation : bool) (ev : Event) : Prop :=
  (is_image_filter_event ev = true -> for_image_generation = true) /\
  (is_can_use_video ev = true ->
     for_image_generation = false /\ for_video_generation = true /\
     is_Some (concurrency_manager C)) /\
  (is_quota_call ev = true -> for_video_generation = true) /\
  (is_renewal_call ev = true -> at_auto_refresh_enabled C = true).

(** What the caller's requirements ask of a token. *)
Definition meets_requirements
    (for_image_generation for_video_generation require_pro : bool)
    (t : Token) : Prop :=
  (for_image_generation = true -> image_enabled t = true) /\
  (for_video_generation = true ->
     video_enabled t = true /\ sora2_supported t = true) /\
  (require_pro = true -> plan_type t = Some "chatgpt_pro"%string).

(** The cooldown of [t] is not in the future at clock reading [z]. *)
Definition cooldown_over_at (z : Z) (t : Token) : Prop :=
  match sora2_cooldown_until t with
  | Some c => c <= z
  | None => True
  end.

(** An awaited collaborator call. *)
Definition is_await (ev : Event) : bool :=
  match ev with EvAwait _ _ => true | _ => false end.

(** What a completed turn of the renewal loop emits for [t]: nothing for a
    token that is inactive or has no expiry; otherwise one clock reading,
    followed by a log line and the awaited renewal exactly when the expiry
    is at most 24 hours past that reading. *)
Definition renewal_turn (t : Token) (seg : list Event) : Prop :=
  match is_active t, expiry_time t with
  | true, Some e =>
      exists z, seg = EvNow z ::
        (if e - z <=? horizon_24h
         then [EvLogInfo; EvAwait (AutoRefreshExpiringToken (token_id t)) None]
         else [])
  | _, _ => seg = []
  end.

(** A token the pass renews: active, with an expiry at most 24 hours past
    the clock reading taken for it just before the renewal is awaited. *)
Definition renewed_in (l : list Token) (evs : list Event) : Prop :=
  forall i ans,
    EvAwait (AutoRefreshExpiringToken i) ans ∈ evs ->
    exists t e z pre post,
      t ∈ l /\ token_id t = i /\ is_active t = true /\
      expiry_time t = Some e /\ e - z <= horizon_24h /\
      evs = pre ++ [EvNow z; EvLogInfo;
                    EvAwait (AutoRefreshExpiringToken i) ans] ++ post.

(** What a completed turn of the video loop emits for [t]: nothing for a
    token without the video flag, without Sora2 support or without a
    cooldown; otherwise a clock reading, then the awaited quota refresh
    and re-read when the cooldown is not past that reading, and a second
    clock reading wherever the token under examination has a cooldown. *)
Definition video_turn (t : Token) (seg : list Event) : Prop :=
  if video_enabled t && sora2_supported t then
    match sora2_cooldown_until t with
    | Some c =>
        exists z rest, seg = EvNow z :: rest /\
          if c <=? z then
            exists rest',
              rest = EvAwait (RefreshSora2Remaining (token_id t)) None
                     :: EvAwait (DbGetToken (token_id t)) None :: rest' /\
              (rest' = [] \/ exists z2, rest' = [EvNow z2])
          else exists z2, rest = [EvNow z2]
    | None => seg = []
    end
  else seg = [].

(** How a token [t'] kept by a turn of the video loop relates to the
    candidate [t] of that turn and to the events [seg] of the turn. *)
Definition kept_from (t : Token) (seg : list Event) (t' : Token) : Prop :=
  video_enabled t = true /\ sora2_supported t = true /\
  (sora2_cooldown_until t' = None \/
   exists c z, sora2_cooldown_until t' = Some c /\ EvNow z ∈ seg /\ c <= z) /\
  match sora2_cooldown_until t with
  | None => t' = t
  | Some c =>
      exists z, head seg = Some (EvNow z) /\
        if c <=? z
        then EvAwait (DbGetToken (token_id t)) None ∈ seg
        else t' = t
  end.

(** ** The turns of the filter loops

    The video and the image filter take one turn per candidate.  A turn
    ends with a token kept (the candidate, or the row read in its place),
    with nothing kept, or with the exception an awaited call raised. *)
Inductive Outcome : Type :=
| Kept (t : Token)
| Dropped
| Raised (e : exn).

(** A turn: the events it emits, how it ends, and the outside world it
    leaves behind. *)
Definition Turn (S : Type) : Type := list Event * Outcome * S.

Definition kept_token {S} (x : Turn S) : option Token :=
  match x.1.2 with Kept t => Some t | _ => None end.

(** What a turn does to the list the loop builds. *)
Definition turn_result (available_tokens : list Token) (o : Outcome)
  : result (list Token) :=
  match o with
  | Kept t => Ok (available_tokens ++ [t])
  | Dropped => Ok available_tokens
  | Raised e => Raise e
  end.

(** The turns of a loop over [l] entered in the outside world [s]: one
    turn per element, in order, each entered in the world the turn before
    it left; a turn that raises is the last one. *)
Fixpoint filter_turns {S} (turn : Token -> S -> Turn S) (l : list Token)
    (s : S) : list (Turn S) :=
  match l with
  | [] => []
  | t :: l' =>
      let x := turn t s in
      x :: match x.1.2 with
           | Raised _ => []
           | _ => filter_turns turn l' x.2
           end
  end.

(** The list a loop has built from [available_tokens] after [turns], or
    the exception that ended it. *)
Fixpoint loop_result {S} (available_tokens : list Token)
    (turns : list (Turn S)) : result (list Token) :=
  match turns with
  | [] => Ok available_tokens
  | x :: turns' =>
      match turn_result available_tokens x.1.2 with
      | Ok available_tokens1 => loop_result available_tokens1 turns'
      | Raise e => Raise e
      end
  end.

(** The outside world after the turns of a loop entered in [s]. *)
Definition final_state {S} (s : S) (turns : list (Turn S)) : S :=
  match last turns with
  | Some x => x.2
  | None => s
  end.

(** One turn of the video loop (lines 145-164) on candidate [token],
    entered in the outside world [s].  The clock is read at line 154 and
    again at line 160; the refresh and the re-read of lines 155-157 are
    awaited between the two. *)
Definition video_turn_run {S} (C : Collaborators S) (token : Token) (s : S)
  : Turn S :=
  if negb (video_enabled token) then ([], Dropped, s)
  else if negb (sora2_supported token) then ([], Dropped, s)
  else
    match sora2_cooldown_until token with
    | None => ([], Kept token, s)
    | Some c =>
        let '(z, s1) := now C s in
        if c <=? z then
          match refresh_sora2_remaining_if_cooldown_expired C (token_id token) s1 with
          | (Raise e, s2) =>
              ([EvNow z;
                EvAwait (RefreshSora2Remaining (token_id token)) (Some e)],
               Raised e, s2)
          | (Ok _, s2) =>
              let refreshed :=
                [EvNow z;
                 EvAwait (RefreshSora2Remaining (token_id token)) None] in
              match get_token C (token_id token) s2 with
              | (Raise e, s3) =>
                  (refreshed ++ [EvAwait (DbGetToken (token_id token)) (Some e)],
                   Raised e, s3)
              | (Ok None, s3) =>
                  (refreshed ++ [EvAwait (DbGetToken (token_id token)) None],
                   Dropped, s3)
              | (Ok (Some row), s3) =>
                  match sora2_cooldown_until row with
                  | None =>
                      (refreshed ++ [EvAwait (DbGetToken (token_id token)) None],
                       Kept row, s3)
                  | Some c1 =>
                      let '(z2, s4) := now C s3 in
                      (refreshed ++ [EvAwait (DbGetToken (token_id token)) None;
                                     EvNow z2],
                       if z2 <? c1 then Dropped else Kept row, s4)
                  end
              end
          end
        else
          let '(z2, s2) := now C s1 in
          ([EvNow z; EvNow z2], if z2 <? c then Dropped else Kept token, s2)
    end.

(** One turn of the image loop (lines 175-183) on candidate [token],
    entered in the outside world [s]. *)
Definition image_turn_run {S} (C : Collaborators S) (token : Token) (s : S)
  : Turn S :=
  if negb (image_enabled token) then ([], Dropped, s)
  else
    match is_locked C (token_id token) s with
    | (Raise e, s1) =>
        ([EvAwait (IsLocked (token_id token)) (Some e)], Raised e, s1)
    | (Ok true, s1) => ([EvAwait (IsLocked (token_id token)) None], Dropped, s1)
    | (Ok false, s1) =>
        match concurrency_manager C with
        | None => ([EvAwait (IsLocked (token_id token)) None], Kept token, s1)
        | Some cm =>
            match can_use_image cm (token_id token) s1 with
            | (Raise e, s2) =>
                ([EvAwait (IsLocked (token_id token)) None;
                  EvAwait (CanUseImage (token_id token)) (Some e)],
                 Raised e, s2)
            | (Ok ok, s2) =>
                ([EvAwait (IsLocked (token_id token)) None;
                  EvAwait (CanUseImage (token_id token)) None],
                 if ok then Kept token else Dropped, s2)
            end
        end
    end.

(** The pool the filters start from (lines 133-138). *)
Definition base_pool (require_pro : bool) (active_tokens : list Token)
  : list Token :=
  if require_pro then List.filter is_pro active_tokens else active_tokens.

(** ** A simulated world

    A small, fully concrete outside world, used to run the balancer on
    explicit inputs: what each listing returns, the rows the database
    returns on a read by identifier, the locked identifiers, the admission
    answers, a fixed clock, the scheduling mode, the calls that fail, and
    the number the generator draws. *)
Record Sim : Type := mkSim {
  sim_all : list Token;
  sim_active : list Token;
  sim_rows : list (Z * Token);
  sim_locked : list Z;
  sim_image_full : list Z;
  sim_video_full : list Z;
  sim_clock : Z;
  sim_mode : string;
  sim_failing : list Call;
  sim_draw : nat
}.

Definition sim_call {A} (c : Call) (v : Sim -> A) : Sim -> result A * Sim :=
  fun s =>
    if bool_decide (c ∈ sim_failing s) then (Raise "collaborator failure", s)
    else (Ok (v s), s).

Fixpoint sim_row (i : Z) (rows : list (Z * Token)) : option Token :=
  match rows with
  | [] => None
  | (j, t) :: rows' => if i =? j then Some t else sim_row i rows'
  end.

Definition sim_concurrency_manager : ConcurrencyManager Sim :=
  mkConcurrencyManager Sim
    (fun i => sim_call (CanUseImage i)
                (fun s => negb (bool_decide (i ∈ sim_image_full s))))
    (fun i => sim_call (CanUseVideo i)
                (fun s => negb (bool_decide (i ∈ sim_video_full s)))).

Definition sim (auto_refresh with_cm : bool) : Collaborators Sim :=
  mkCollaborators Sim
    auto_refresh
    (sim_call GetAllTokens sim_all)
    (fun i => sim_call (AutoRefreshExpiringToken i) (fun _ => tt))
    (sim_call GetActiveTokens sim_active)
    (fun i => sim_call (RefreshSora2Remaining i) (fun _ => tt))
    (sim_call GetSchedulingMode sim_mode)
    (fun i => sim_call (IncrementUsageCount i) (fun _ => tt))
    (fun i => sim_call (DbGetToken i) (fun s => sim_row i (sim_rows s)))
    (fun i => sim_call (IsLocked i) (fun s => bool_decide (i ∈ sim_locked s)))
    (if with_cm then Some sim_concurrency_manager else None)
    (fun s => (sim_clock s, s))
    (fun _ s => (sim_draw s, s)).




(** A token with every capability, no expiry and no cooldown. *)
Definition plain_token (i : Z) (u : Z) : Token :=
  mkToken i "user@example.com" true None (Some "chatgpt_pro"%string)
          true true true None (Some u).

Definition set_cooldown (c : option Z) (t : Token) : Token :=
  mkToken (token_id t) (email t) (is_active t) (expiry_time t) (plan_type t)
          (image_enabled t) (video_enabled t) (sora2_supported t) c
          (usage_count t).

Definition set_expiry (e : option Z) (t : Token) : Token :=
  mkToken (token_id t) (email t) (is_active t) e (plan_type t)
          (image_enabled t) (video_enabled t) (sora2_supported t)
          (sora2_cooldown_until t) (usage_count t).

Definition set_video_enabled (b : bool) (t : Token) : Token :=
  mkToken (token_id t) (email t) (is_active t) (expiry_time t) (plan_type t)
          (image_enabled t) b (sora2_supported t)
          (sora2_cooldown_until t) (usage_count t).

Definition set_plan (p : option string) (t : Token) : Token :=
  mkToken (token_id t) (email t) (is_active t) (expiry_time t) p
          (image_enabled t) (video_enabled t) (sora2_supported t)
          (sora2_cooldown_until t) (usage_count t).

Definition sim_world (s : Sim) : World Sim := mkWorld s ∅.

(** The pool of the round-robin scenario: T1 used 3 times, T2 and T3
    once. *)
Definition T1 : Token := plain_token 1 3.
Definition T2 : Token := plain_token 2 1.
Definition T3 : Token := plain_token 3 1.
Definition scenario_pool : list Token := [T1; T2; T3].

Definition quiet_sim (active : list Token) (mode : string) : Sim :=
  mkSim active active [] [] [] [] 1000 mode [] 0.

(** *** Scenarios

    Concrete worlds on which the balancer is run below.  The clock of
    every scenario stands at 1000. *)

(** A token whose cooldown (500) is past. *)
Definition cooling_token : Token := set_cooldown (Some 500) (plain_token 1 0).

(** The registry row re-read for the cooling token: the quota is back. *)
Definition refreshed_row : Token := plain_token 1 0.

(** The listing has the cooling token and T2; the re-read finds the
    cooldown cleared. *)
Definition refreshed_sim : Sim :=
  mkSim [] [cooling_token; T2] [(1, refreshed_row)] [] [] [] 1000
        "round_robin" [] 0.

(** The row of the cooling token was changed after the listing was read:
    the re-read finds the video flag off. *)
Definition stale_video_sim : Sim :=
  mkSim [] [cooling_token] [(1, set_video_enabled false refreshed_row)]
        [] [] [] 1000 "random" [] 0.

(** The same with the plan: the re-read finds a free plan. *)
Definition stale_plan_sim : Sim :=
  mkSim [] [cooling_token] [(1, set_plan (Some "free"%string) refreshed_row)]
        [] [] [] 1000 "random" [] 0.

(** The quota refresh of the cooling token fails; T2 is healthy. *)
Definition failing_refresh_sim : Sim :=
  mkSim [] [cooling_token; T2] [(1, refreshed_row)] [] [] [] 1000
        "random" [RefreshSora2Remaining 1] 0.

(** The re-read of the cooling token fails; T2 is healthy. *)
Definition failing_reread_sim : Sim :=
  mkSim [] [cooling_token; T2] [(1, refreshed_row)] [] [] [] 1000
        "random" [DbGetToken 1] 0.

(** The base pool fetch fails. *)
Definition failing_fetch_sim : Sim :=
  mkSim [] [T1] [] [] [] [] 1000 "random" [GetActiveTokens] 0.



(** The collaborators of the scenarios with a registry write that is
    cancelled: the awaited [increment_usage_count] raises
    [asyncio.CancelledError]. *)
Definition cancelled_write_sim : Collaborators Sim :=
  with_increment_usage_count (sim false false)
    (fun _ s => (Raise "CancelledError"%string, s)).

(** A token that expires one hour after the clock reading, and one that
    expires in two days. *)
Definition expiring_token : Token :=
  set_expiry (Some (1000 + 3600 * 1000000)) (plain_token 1 0).

Definition lasting_token : Token :=
  set_expiry (Some (1000 + 48 * 3600 * 1000000)) (plain_token 2 0).

Definition renewing_sim : Sim :=
  mkSim [expiring_token; lasting_token] [expiring_token; lasting_token]
        [] [] [] [] 1000 "random" [] 0.

(** The same, with a renewal of the expiring token that fails. *)
Definition failing_renewal_sim : Sim :=
  mkSim [expiring_token; lasting_token] [expiring_token; lasting_token]
        [] [] [] [] 1000 "random" [AutoRefreshExpiringToken 1] 0.

(** A pool without any video capability, and one whose tokens are all
    locked for images. *)
Definition no_video_sim : Sim :=
  mkSim [] [set_video_enabled false T1; set_video_enabled false T2]
        [] [] [] [] 1000 "random" [] 0.

Definition all_locked_sim : Sim :=
  mkSim [] [T1; T2] [] [1; 2] [] [] 1000 "random" [] 0.

(** T1 is locked for images, T3 has no video slot left. *)
Definition busy_sim : Sim :=
  mkSim [] scenario_pool [] [1] [] [3] 1000 "round_robin" [] 0.

(** The run of a selection on a scenario. *)
Definition run_select (C : Collaborators Sim)
    (for_image_generation for_video_generation require_pro : bool) (s : Sim)
  : result (option Token) * World Sim * list Event :=
  select_token C for_image_generation for_video_generation require_pro
               (sim_world s).

(** A token without video capability. *)
Definition no_video_capability (t : Token) : Prop :=
  video_enabled t = false \/ sora2_supported t = false.

(** ** The exclusivity lock *)

Module TokenLock.

(** Modelled from the spec: [services/token_lock.py], the class behind
    [self.token_lock], is not among the sources; the balancer only builds
    it with [lock_timeout=config.image_timeout] (line 19) and asks
    [is_locked].  A lease is a holder marker and an expiry instant; a lease
    past its timeout counts as free; [acquire] is one atomic step. *)
Record Lease : Type := mkLease {
  holder : nat;
  expiry : Z
}.

Record t : Type := mkLock {
  lock_timeout : Z;
  leases : gmap Z Lease
}.

(** A lease is live up to and including its expiry instant, and expired
    past it. *)
Definition is_locked (l : t) (tid : Z) (now : Z) : bool :=
  match leases l !! tid with
  | Some lease => now <=? expiry lease
  | None => false
  end.

(** [acquire]: succeeds iff the identifier is free, and then records a
    lease for [caller] that expires [lock_timeout] later. *)
Definition acquire (l : t) (caller : nat) (tid : Z) (now : Z) : bool * t :=
  if is_locked l tid now then (false, l)
  else (true,
        mkLock (lock_timeout l)
               (<[tid := mkLease caller (now + lock_timeout l)]> (leases l))).

Definition release (l : t) (tid : Z) : t :=
  mkLock (lock_timeout l) (delete tid (leases l)).

(** What callers other than the two under watch may do in between. *)
Inductive Op : Type :=
| OpIsLocked (tid : Z) (now : Z)
| OpAcquire (caller : nat) (tid : Z) (now : Z)
| OpRelease (tid : Z).

Definition step (l : t) (op : Op) : t :=
  match op with
  | OpIsLocked _ _ => l
  | OpAcquire c tid now => (acquire l c tid now).2
  | OpRelease tid => release l tid
  end.

Definition run (l : t) (ops : list Op) : t := foldl step l ops.

(** [op] neither releases [tid] nor runs after instant [bound]. *)
Definition keeps (tid : Z) (bound : Z) (op : Op) : Prop :=
  match op with
  | OpIsLocked _ _ => True
  | OpAcquire _ _ now => now <= bound
  | OpRelease tid' => tid' <> tid
  end.

End TokenLock.

(** * Properties *)

(** ** The usage cache *)

Lemma get_cached_usage_lookup tid db_usage cache :
  (_get_cached_usage tid db_usage cache).2 !! tid
  = Some (_get_cached_usage tid db_usage cache).1.
Proof.
  unfold _get_cached_usage.
  destruct (cache !! tid) as [u|] eqn:E; simpl; [done|].
  apply lookup_insert_eq.
Qed.

Lemma get_cached_usage_preserves tid db_usage cache k u :
  cache !! k = Some u ->
  (_get_cached_usage tid db_usage cache).2 !! k = Some u.
Proof.
  intros Hk. unfold _get_cached_usage.
  destruct (cache !! tid) as [v|] eqn:E; simpl; [done|].
  rewrite lookup_insert_ne; [done|]. intros ->. congruence.
Qed.

Lemma get_cached_usage_other tid db_usage cache k :
  k <> tid ->
  (_get_cached_usage tid db_usage cache).2 !! k = cache !! k.
Proof.
  intros Hk. unfold _get_cached_usage.
  destruct (cache !! tid) as [v|] eqn:E; simpl; [done|].
  by rewrite lookup_insert_ne.
Qed.

(** C7: a present entry is returned as it is and the cache is left alone,
    whatever registry value comes with the call; an absent entry is created
    from the registry value, which is returned; no entry that exists is
    ever overwritten. *)
Theorem get_cached_usage_never_overwrites (tid db_usage : Z) (cache : gmap Z Z) :
  (forall u, cache !! tid = Some u ->
     _get_cached_usage tid db_usage cache = (u, cache)) /\
  (cache !! tid = None ->
     _get_cached_usage tid db_usage cache
     = (db_usage, <[tid := db_usage]> cache)) /\
  (forall k u, cache !! k = Some u ->
     (_get_cached_usage tid db_usage cache).2 !! k = Some u).
Proof.
  split; [|split].
  - intros u Hu. unfold _get_cached_usage. by rewrite Hu.
  - intros Hn. unfold _get_cached_usage. by rewrite Hn.
  - intros k u. apply get_cached_usage_preserves.
Qed.

Lemma get_cached_usage_never_overwrites_witness :
  _get_cached_usage 7 99 (<[7 := 5]> ∅) = (5, <[7 := 5]> ∅).
Proof.
  apply (proj1 (get_cached_usage_never_overwrites 7 99 (<[7 := 5]> ∅)) 5).
  reflexivity.
Defined.

(** ** The round-robin selector *)

Lemma resolve_usage_preserves ts : forall cache k u,
  cache !! k = Some u -> (resolve_usage ts cache).2 !! k = Some u.
Proof.
  induction ts as [|t ts IH]; intros cache k u Hk; simpl; [done|].
  pose proof (get_cached_usage_preserves (token_id t) (usage_or_0 t) cache k u Hk) as H1.
  destruct (_get_cached_usage (token_id t) (usage_or_0 t) cache) as [v c1].
  specialize (IH c1 k u H1).
  destruct (resolve_usage ts c1) as [rest c2]. exact IH.
Qed.

Lemma resolve_usage_other ts : forall cache k,
  (forall t, t ∈ ts -> token_id t <> k) ->
  (resolve_usage ts cache).2 !! k = cache !! k.
Proof.
  induction ts as [|t ts IH]; intros cache k Hk; simpl; [done|].
  assert (k <> token_id t) as Hne.
  { intros ->. apply (Hk t); [left|done]. }
  pose proof (get_cached_usage_other (token_id t) (usage_or_0 t) cache k Hne) as H1.
  destruct (_get_cached_usage (token_id t) (usage_or_0 t) cache) as [v c1].
  assert (forall t', t' ∈ ts -> token_id t' <> k) as Hk'.
  { intros t' Ht'. apply Hk. by right. }
  specialize (IH c1 k Hk').
  destruct (resolve_usage ts c1) as [rest c2]. simpl in *. congruence.
Qed.

(** The pairs keep the candidates in their order, and every pair carries
    the entry the seeded cache holds for its token. *)
Lemma resolve_usage_pairs ts : forall cache j,
  match (resolve_usage ts cache).1 !! j with
  | Some (t, u) =>
      ts !! j = Some t /\ (resolve_usage ts cache).2 !! token_id t = Some u
  | None => ts !! j = None
  end.
Proof.
  induction ts as [|t ts IH]; intros cache j; simpl; [done|].
  pose proof (get_cached_usage_lookup (token_id t) (usage_or_0 t) cache) as H1.
  destruct (_get_cached_usage (token_id t) (usage_or_0 t) cache) as [v c1].
  pose proof (resolve_usage_preserves ts c1 (token_id t) v H1) as H2.
  specialize (IH c1).
  destruct (resolve_usage ts c1) as [rest c2]. simpl in *.
  destruct j as [|j]; simpl; [done|]. apply IH.
Qed.

Lemma resolve_usage_length ts cache :
  length (resolve_usage ts cache).1 = length ts.
Proof.
  revert cache. induction ts as [|t ts IH]; intros cache; simpl; [done|].
  destruct (_get_cached_usage (token_id t) (usage_or_0 t) cache) as [v c1].
  specialize (IH c1). destruct (resolve_usage ts c1) as [rest c2].
  simpl in *. by rewrite IH.
Qed.

(** The first candidate carrying an identifier without an entry seeds it
    with its registry value. *)
Lemma resolve_usage_seed ts : forall cache i t,
  ts !! i = Some t ->
  cache !! token_id t = None ->
  (forall j t', (j < i)%nat -> ts !! j = Some t' -> token_id t' <> token_id t) ->
  (resolve_usage ts cache).2 !! token_id t = Some (usage_or_0 t).
Proof.
  induction ts as [|t0 ts IH]; intros cache i t Hi Hn Hfirst; [done|].
  simpl. destruct i as [|i]; simpl in Hi.
  - injection Hi as ->.
    pose proof (resolve_usage_preserves ts
      (<[token_id t := usage_or_0 t]> cache) (token_id t) (usage_or_0 t)
      (lookup_insert_eq _ _ _)) as H1.
    unfold _get_cached_usage. rewrite Hn.
    destruct (resolve_usage ts _) as [rest c2]. exact H1.
  - assert (token_id t0 <> token_id t) as Hne.
    { apply (Hfirst 0%nat t0); [lia|done]. }
    pose proof (get_cached_usage_other (token_id t0) (usage_or_0 t0) cache
                  (token_id t) (not_eq_sym Hne)) as H1.
    destruct (_get_cached_usage (token_id t0) (usage_or_0 t0) cache) as [v c1].
    simpl in H1.
    assert (c1 !! token_id t = None) as Hn1 by congruence.
    specialize (IH c1 i t Hi Hn1).
    destruct (resolve_usage ts c1) as [rest c2]. simpl in *.
    apply IH. intros j t' Hj Ht'. apply (Hfirst (Datatypes.S j) t'); [lia|done].
Qed.

Lemma insert_by_usage_head x l :
  head (insert_by_usage x l)
  = match head l with
    | Some y => if x.2 <=? y.2 then Some x else Some y
    | None => Some x
    end.
Proof.
  destruct l as [|y l]; simpl; [done|].
  by destruct (x.2 <=? y.2).
Qed.

(** The head of the sorted list is the first element of least usage. *)
Lemma sort_by_usage_head (l : list (Token * Z)) :
  l <> [] ->
  exists i x,
    l !! i = Some x /\ head (sort_by_usage l) = Some x /\
    forall j y, l !! j = Some y ->
      x.2 <= y.2 /\ ((j < i)%nat -> x.2 < y.2).
Proof.
  induction l as [|p l IH]; [done|]. intros _.
  simpl. rewrite insert_by_usage_head.
  destruct l as [|q l].
  - exists 0%nat, p. simpl. split; [done|]. split; [done|].
    intros [|j] y Hy; simpl in Hy; [|done].
    injection Hy as <-. lia.
  - destruct IH as (i & x & Hi & Hh & Hmin); [done|].
    rewrite Hh. destruct (p.2 <=? x.2) eqn:E.
    + apply Z.leb_le in E. exists 0%nat, p. split; [done|]. split; [done|].
      intros [|j] y Hy; simpl in Hy.
      * injection Hy as <-. lia.
      * destruct (Hmin j y Hy) as [H1 _]. lia.
    + apply Z.leb_gt in E. exists (Datatypes.S i), x.
      split; [done|]. split; [done|].
      intros [|j] y Hy.
      * simpl in Hy. injection Hy as <-. lia.
      * destruct (Hmin j y Hy) as [H1 H2]. split; [done|]. intros Hj.
        apply H2. lia.
Qed.

Lemma critical_section_least_used (t0 : Token) (rest : list Token)
    (cache : gmap Z Z) :
  let available := t0 :: rest in
  let seeded := (resolve_usage available cache).2 in
  exists (i : nat) (sel : Token) (cur : Z),
    critical_section available cache
    = Some (sel, cur, <[token_id sel := cur + 1]> seeded) /\
    available !! i = Some sel /\
    seeded !! token_id sel = Some cur /\
    forall (j : nat) (t : Token), available !! j = Some t ->
      exists u, seeded !! token_id t = Some u /\ cur <= u /\
                ((j < i)%nat -> cur < u).
Proof.
  intros available seeded. subst seeded. unfold critical_section.
  pose proof (resolve_usage_pairs available cache) as Hpairs.
  pose proof (resolve_usage_length available cache) as Hlen.
  destruct (resolve_usage available cache) as [twu seeded]. simpl in *.
  assert (twu <> []) as Hne by (intros ->; simpl in Hlen; lia).
  destruct (sort_by_usage_head twu Hne) as (i & [sel cur] & Hi & Hh & Hmin).
  destruct (sort_by_usage twu) as [|[sel' cur'] tl]; [done|].
  simpl in Hh. injection Hh as -> ->.
  exists i, sel, cur. split; [done|].
  pose proof (Hpairs i) as Hpi. rewrite Hi in Hpi. destruct Hpi as [Hai Hsi].
  split; [done|]. split; [done|].
  intros j t Hj. pose proof (Hpairs j) as Hpj.
  destruct (twu !! j) as [[t' u]|] eqn:Ej.
  - destruct Hpj as [Haj Hsj]. rewrite Hj in Haj. injection Haj as <-.
    exists u. split; [done|]. apply (Hmin j (t, u) Ej).
  - congruence.
Qed.

(** C2: on a non-empty candidate list the selector returns the first
    candidate (in input order) whose cached counter is least, the counters
    being those of the cache once missing entries are seeded; afterwards
    the selected token's entry is its old value plus one and every other
    entry is as seeded; seeding keeps every entry that existed, touches no
    identifier outside the candidates, and gives a fresh identifier the
    registry value of the first candidate carrying it.  On the pool
    [T1(3), T2(1), T3(1)] three calls in a row return T2, T3, T2 and leave
    the counters 3, 3, 2. *)
Theorem round_robin_selects_least_used :
  (forall (S : Type) (t0 : Token) (rest : list Token)
          (for_image for_video : bool) (w : World S),
     let available := t0 :: rest in
     let cache := usage_cache w in
     let seeded := (resolve_usage available cache).2 in
     exists (i : nat) (sel : Token) (cur : Z),
       available !! i = Some sel /\
       seeded !! token_id sel = Some cur /\
       (forall (j : nat) (t : Token), available !! j = Some t ->
          exists u, seeded !! token_id t = Some u /\ cur <= u /\
                    ((j < i)%nat -> cur < u)) /\
       (forall k u, cache !! k = Some u -> seeded !! k = Some u) /\
       (forall k, (forall t, t ∈ available -> token_id t <> k) ->
                  seeded !! k = cache !! k) /\
       (forall (j : nat) (t : Token), available !! j = Some t ->
          cache !! token_id t = None ->
          (forall j' t', (j' < j)%nat -> available !! j' = Some t' ->
                         token_id t' <> token_id t) ->
          seeded !! token_id t = Some (usage_or_0 t)) /\
       exists w',
         _select_round_robin available for_image for_video w
         = (Ok (Some sel), w',
            [EvLockAcquire; EvLockRelease; EvCreateTask (token_id sel);
             EvLogInfo]) /\
         ext w' = ext w /\
         usage_cache w' !! token_id sel = Some (cur + 1) /\
         (forall k, k <> token_id sel ->
                    usage_cache w' !! k = seeded !! k)) /\
  (let w0 := sim_world (quiet_sim scenario_pool "round_robin") in
   let '(r1, w1, _) := _select_round_robin scenario_pool false false w0 in
   let '(r2, w2, _) := _select_round_robin scenario_pool false false w1 in
   let '(r3, w3, _) := _select_round_robin scenario_pool false false w2 in
   r1 = Ok (Some T2) /\ r2 = Ok (Some T3) /\ r3 = Ok (Some T2) /\
   usage_cache w1 !! 2 = Some 2 /\ usage_cache w2 !! 3 = Some 2 /\
   usage_cache w3 !! 1 = Some 3 /\ usage_cache w3 !! 2 = Some 3 /\
   usage_cache w3 !! 3 = Some 2).
Proof.
  split.
  - intros S t0 rest for_image for_video w available cache seeded.
    destruct (critical_section_least_used t0 rest cache)
      as (i & sel & cur & Hcs & Hi & Hs & Hmin).
    exists i, sel, cur.
    split; [exact Hi|]. split; [exact Hs|]. split; [exact Hmin|].
    split; [intros k u; apply resolve_usage_preserves|].
    split; [intros k; apply resolve_usage_other|].
    split; [intros j t; apply resolve_usage_seed|].
    exists (mkWorld (ext w) (<[token_id sel := cur + 1]> seeded)).
    split.
    + unfold _select_round_robin, available, bind, emit, get_cache.
      change (usage_cache w) with cache.
      rewrite Hcs. reflexivity.
    + split; [done|]. simpl. split; [apply lookup_insert_eq|].
      intros k Hk. by rewrite lookup_insert_ne.
  - vm_compute. repeat split.
Qed.

Lemma round_robin_selects_least_used_witness :
  exists (i : nat) (sel : Token) (cur : Z),
    scenario_pool !! i = Some sel /\
    (resolve_usage scenario_pool ∅).2 !! token_id sel = Some cur /\
    forall (j : nat) (t : Token), scenario_pool !! j = Some t ->
      exists u, (resolve_usage scenario_pool ∅).2 !! token_id t = Some u /\
                cur <= u /\ ((j < i)%nat -> cur < u).
Proof.
  destruct (proj1 round_robin_selects_least_used Sim
              T1 [T2; T3] false false
              (sim_world (quiet_sim scenario_pool "round_robin")))
    as (i & sel & cur & Hi & Hs & Hmin & _).
  exists i, sel, cur. split; [exact Hi|]. split; [exact Hs|exact Hmin].
Defined.

(** ** Reasoning about computations *)

Section Reasoning.

Context {S : Type}.

Lemma bind_inv {A B} (m : M S A) (f : A -> M S B) w r w' evs :
  bind m f w = (r, w', evs) ->
  (exists a w1 evs1 evs2,
      m w = (Ok a, w1, evs1) /\ f a w1 = (r, w', evs2) /\
      evs = evs1 ++ evs2) \/
  (exists e, m w = (Raise e, w', evs) /\ r = Raise e).
Proof.
  unfold bind. destruct (m w) as [[[a|e] w1] evs1].
  - destruct (f a w1) as [[r2 w2] evs2] eqn:E. intros [= <- <- <-].
    left. by exists a, w1, evs1, evs2.
  - intros [= <- <- <-]. right. by exists e.
Qed.

(** Invariants of a loop: [I] relates the loop variable to the events
    emitted so far for as long as the loop runs, [Q] holds of the events
    however the loop ends. *)
Lemma for_each_inv {A B} (body : A -> B -> M S B)
    (I : B -> list Event -> Prop) (Q : list Event -> Prop) (l : list A) :
  (forall x acc w evs0 r w' evs,
      x ∈ l -> I acc evs0 -> Q evs0 -> body x acc w = (r, w', evs) ->
      Q (evs0 ++ evs) /\ forall acc', r = Ok acc' -> I acc' (evs0 ++ evs)) ->
  forall acc w evs0 r w' evs,
    I acc evs0 -> Q evs0 -> for_each body l acc w = (r, w', evs) ->
    Q (evs0 ++ evs) /\ forall acc', r = Ok acc' -> I acc' (evs0 ++ evs).
Proof.
  induction l as [|x l IH]; intros Hbody acc w evs0 r w' evs HI HQ Hrun.
  - simpl in Hrun. injection Hrun as <- <- <-. rewrite app_nil_r.
    split; [done|]. by intros acc' [= <-].
  - simpl in Hrun. apply bind_inv in Hrun
      as [(a & w1 & evs1 & evs2 & Hb & Hrest & ->)|(e & Hb & ->)].
    + destruct (Hbody x acc w evs0 (Ok a) w1 evs1) as [HQ1 HI1];
        [left|done|done|done|].
      specialize (HI1 a eq_refl).
      rewrite app_assoc.
      eapply IH; [|exact HI1|exact HQ1|exact Hrest].
      intros y acc0 w0 evs3 r0 w0' evs4 Hy. apply Hbody. by right.
    + destruct (Hbody x acc w evs0 (Raise e) w' evs) as [HQ1 _];
        [left|done|done|done|].
      split; [done|]. intros acc' [=].
Qed.

(** The usage cache is left alone by a loop whose body leaves it alone. *)
Lemma for_each_cache {A B} (body : A -> B -> M S B) (l : list A) :
  (forall x acc w r w' evs,
      body x acc w = (r, w', evs) -> usage_cache w' = usage_cache w) ->
  forall acc w r w' evs,
    for_each body l acc w = (r, w', evs) -> usage_cache w' = usage_cache w.
Proof.
  intros Hbody. induction l as [|x l IH]; intros acc w r w' evs Hrun.
  - simpl in Hrun. by injection Hrun as <- <- <-.
  - simpl in Hrun. apply bind_inv in Hrun
      as [(a & w1 & evs1 & evs2 & Hb & Hrest & ->)|(e & Hb & ->)].
    + rewrite (IH _ _ _ _ _ Hrest). eapply Hbody, Hb.
    + eapply Hbody, Hb.
Qed.

Lemma all_returned_app evs1 evs2 :
  all_returned evs1 -> all_returned evs2 -> all_returned (evs1 ++ evs2).
Proof. unfold all_returned. intros H1 H2. by apply Forall_app. Qed.

Lemma propagates_app {A B} (a : A) (r : result B) evs1 evs2 :
  propagates (Ok a) evs1 -> propagates r evs2 -> propagates r (evs1 ++ evs2).
Proof.
  intros H1 H2. destruct r as [b|e]; simpl in *.
  - by apply all_returned_app.
  - destruct H2 as (c & pre & -> & Hpre). exists c, (evs1 ++ pre).
    split; [by rewrite app_assoc|]. by apply all_returned_app.
Qed.

Lemma propagates_bind {A B} (m : M S A) (f : A -> M S B) w r w' evs :
  (forall r1 w1 evs1, m w = (r1, w1, evs1) -> propagates r1 evs1) ->
  (forall a w1 r2 w2 evs2, f a w1 = (r2, w2, evs2) -> propagates r2 evs2) ->
  bind m f w = (r, w', evs) -> propagates r evs.
Proof.
  intros Hm Hf Hrun. apply bind_inv in Hrun
    as [(a & w1 & evs1 & evs2 & Hb & Hrest & ->)|(e & Hb & ->)].
  - eapply propagates_app; [eapply Hm, Hb|eapply Hf, Hrest].
  - exact (Hm (Raise e) w' evs Hb).
Qed.

Lemma for_each_propagates {A B} (body : A -> B -> M S B) (l : list A) :
  (forall x acc w r w' evs,
      body x acc w = (r, w', evs) -> propagates r evs) ->
  forall acc w r w' evs,
    for_each body l acc w = (r, w', evs) -> propagates r evs.
Proof.
  intros Hbody. induction l as [|x l IH]; intros acc w r w' evs Hrun.
  - simpl in Hrun. injection Hrun as <- <- <-. constructor.
  - simpl in Hrun. eapply propagates_bind; [| |exact Hrun].
    + intros r1 w1 evs1. apply Hbody.
    + intros a w1 r2 w2 evs2. apply IH.
Qed.

Lemma await_propagates {A} (c : Call) (f : S -> result A * S) w r w' evs :
  await c f w = (r, w', evs) -> propagates r evs.
Proof.
  unfold await. destruct (f (ext w)) as [[a|e] s]; intros [= <- <- <-]; simpl.
  - by repeat constructor.
  - exists c, []. split; [done|constructor].
Qed.

(** The completed turns of a loop, one segment of events per element. *)
Lemma for_each_segs {A B} (body : A -> B -> M S B)
    (T : A -> list Event -> Prop) (l : list A) :
  (forall x acc w acc' w' evs,
      body x acc w = (Ok acc', w', evs) -> T x evs) ->
  forall acc w acc' w' evs,
    for_each body l acc w = (Ok acc', w', evs) ->
    exists segs, Forall2 T l segs /\ evs = concat segs.
Proof.
  intros Hbody. induction l as [|x l IH]; intros acc w acc' w' evs Hrun.
  - simpl in Hrun. injection Hrun as <- <- <-. exists []. by split.
  - simpl in Hrun. apply bind_inv in Hrun
      as [(a & w1 & evs1 & evs2 & Hb & Hrest & ->)|(e & _ & [=])].
    destruct (IH _ _ _ _ _ Hrest) as (segs & Hsegs & ->).
    exists (evs1 :: segs). split; [|done].
    constructor; [eapply Hbody, Hb|done].
Qed.

(** The same for a loop that filters: every turn keeps at most one
    element, and the list built is the elements kept, in order. *)
Lemma for_each_outs {A X} (body : A -> list X -> M S (list X))
    (T : A -> list Event -> option X -> Prop) (l : list A) :
  (forall x acc w acc' w' evs,
      body x acc w = (Ok acc', w', evs) ->
      exists o, T x evs o /\ acc' = acc ++ option_list o) ->
  forall acc w acc' w' evs,
    for_each body l acc w = (Ok acc', w', evs) ->
    exists outs : list (list Event * option X),
      Forall2 (fun x o => T x o.1 o.2) l outs /\
      evs = concat outs.*1 /\ acc' = acc ++ omap snd outs.
Proof.
  intros Hbody. induction l as [|x l IH]; intros acc w acc' w' evs Hrun.
  - simpl in Hrun. injection Hrun as <- <- <-. exists [].
    split; [constructor|]. split; [done|]. by rewrite app_nil_r.
  - simpl in Hrun. apply bind_inv in Hrun
      as [(a & w1 & evs1 & evs2 & Hb & Hrest & ->)|(e & _ & [=])].
    destruct (Hbody _ _ _ _ _ _ Hb) as (o & HT & ->).
    destruct (IH _ _ _ _ _ Hrest) as (outs & Houts & -> & ->).
    exists ((evs1, o) :: outs). split; [by constructor|]. split; [done|].
    rewrite <- app_assoc. f_equal. by destruct o.
Qed.

(** Every awaited call of a run that returned has returned. *)
Lemma failed_with_not_returned e evs :
  failed_with e evs -> ~ all_returned evs.
Proof.
  intros (c & pre & -> & _) H. apply Forall_app in H as [_ H].
  by inversion H.
Qed.

Lemma propagates_ok_iff {A} (r : result A) evs :
  propagates r evs -> (all_returned evs <-> exists a, r = Ok a).
Proof.
  destruct r as [a|e]; simpl; intros H.
  - split; [by exists a|done].
  - split; [intros H'; by apply failed_with_not_returned in H|by intros [? ?]].
Qed.

End Reasoning.

(** Unfolds a body down to its collaborator calls and splits on every
    answer. *)
Ltac run_body H :=
  unfold bind, await, clock, emit, log_info, ret, raise in H;
  repeat (case_match; simplify_eq/=).

Ltac solve_propagates :=
  first
    [ by repeat constructor
    | by (eexists _, []; split; [reflexivity|repeat constructor])
    | by (eexists _, [_]; split; [reflexivity|repeat constructor])
    | by (eexists _, [_; _]; split; [reflexivity|repeat constructor])
    | by (eexists _, [_; _; _]; split; [reflexivity|repeat constructor])
    | by (eexists _, [_; _; _; _]; split; [reflexivity|repeat constructor]) ].

Section Stages.

Context {S : Type} (C : Collaborators S).

(** *** The video filter *)

(** One turn of the video loop: it emits clock readings, quota refreshes
    and re-reads only; it absorbs no exception; it keeps at most one token;
    a token it keeps has no cooldown beyond a clock reading of this turn;
    and what it keeps is the candidate itself, free of cooldown, or a
    token re-read after a quota refresh, or the candidate whose cooldown
    lies between two successive readings of the clock. *)
Lemma video_body_spec (t : Token) (acc : list Token) w r w' evs :
  video_body C t acc w = (r, w', evs) ->
  Forall (fun ev => is_video_filter_event ev = true) evs /\
  usage_cache w' = usage_cache w /\
  propagates r evs /\
  forall acc', r = Ok acc' ->
    acc' = acc \/
    exists t', acc' = acc ++ [t'] /\
      video_enabled t = true /\ sora2_supported t = true /\
      (sora2_cooldown_until t' = None \/
       exists c z, sora2_cooldown_until t' = Some c /\
                   EvNow z ∈ evs /\ c <= z) /\
      ((t' = t /\ sora2_cooldown_until t = None /\ evs = []) \/
       (exists c z rest,
           sora2_cooldown_until t = Some c /\ c <= z /\
           evs = [EvNow z;
                  EvAwait (RefreshSora2Remaining (token_id t)) None;
                  EvAwait (DbGetToken (token_id t)) None] ++ rest) \/
       (t' = t /\ exists c z1 z2,
           sora2_cooldown_until t = Some c /\ z1 < c /\ c <= z2 /\
           evs = [EvNow z1; EvNow z2])).
Proof.
  intros H. unfold video_body in H.
  destruct (video_enabled t) eqn:Ev; simpl in H;
    [|injection H as <- <- <-; split; [constructor|split; [done|]];
      split; [constructor|]; intros acc' [= <-]; by left].
  destruct (sora2_supported t) eqn:Es; simpl in H;
    [|injection H as <- <- <-; split; [constructor|split; [done|]];
      split; [constructor|]; intros acc' [= <-]; by left].
  run_body H.
  all: split; [repeat constructor|split; [done|]].
  all: split; [solve_propagates|].
  all: intros acc' [= <-].
  all: try (by left).
  all: right; eexists; split; [reflexivity|]; split; [done|]; split; [done|].
  all: repeat match goal with
         | H : (_ <=? _) = true |- _ => apply Z.leb_le in H
         | H : (_ <=? _) = false |- _ => apply Z.leb_gt in H
         | H : (_ <? _) = true |- _ => apply Z.ltb_lt in H
         | H : (_ <? _) = false |- _ => apply Z.ltb_ge in H
         end.
  - split.
    + right. eexists _, _. split; [done|]. split; [|eassumption].
      set_solver.
    + right. left. eexists _, _, _. split; [done|]. split; [eassumption|].
      reflexivity.
  - split.
    + right. eexists _, _. split; [done|]. split; [|eassumption].
      set_solver.
    + right. right. split; [done|]. eexists _, _, _.
      split; [done|]. split; [eassumption|]. split; [eassumption|done].
  - split.
    + by left.
    + right. left. eexists _, _, _. split; [done|]. split; [eassumption|].
      reflexivity.
  - split; [by left|]. left. done.
Qed.

Lemma video_body_turn (t : Token) (acc : list Token) w acc' w' evs :
  video_body C t acc w = (Ok acc', w', evs) ->
  exists o : option Token,
    (video_turn t evs /\ from_option (kept_from t evs) True o) /\
    acc' = acc ++ option_list o.
Proof.
  intros H. unfold video_body in H. unfold video_turn, kept_from.
  destruct (video_enabled t) eqn:Ev; simpl in H;
    [|injection H as <- <- <-; exists None; simpl;
      split; [done|by rewrite app_nil_r]].
  destruct (sora2_supported t) eqn:Es; simpl in H;
    [|injection H as <- <- <-; exists None; simpl;
      split; [done|by rewrite app_nil_r]].
  run_body H.
  all: repeat match goal with
         | H : (_ <? _) = true |- _ => apply Z.ltb_lt in H
         | H : (_ <? _) = false |- _ => apply Z.ltb_ge in H
         end.
  all: first
    [ (exists None); simpl; split; [|by rewrite app_nil_r]; split; [|done]
    | eexists (Some _); simpl; split; [|reflexivity]; split ].
  all: repeat match goal with
         | |- exists z rest, EvNow ?a :: ?r = EvNow z :: rest /\ _ =>
             exists a, r; split; [reflexivity|]
         | H : (?c <=? ?z) = _ |- context [?c <=? ?z] => rewrite H
         end.
  all: try done.
  all: try (eexists; split; [reflexivity|]; first [by left|right; by eexists]).
  all: try (by eexists).
  all: repeat split; try done.
  all: try (by left).
  all: try (right; eexists _, _; split; [done|]; split; [|eassumption]; set_solver).
  all: try (eexists; split; [reflexivity|]).
  all: try match goal with
         | H : (?c <=? ?z) = _ |- context [?c <=? ?z] => rewrite H
         end.
  all: try done.
  all: set_solver.
Qed.

(** The video loop as a whole: the events are those of its turns, one
    after the other, and the list built is the tokens the turns kept. *)
Lemma video_filter_spec (l : list Token) acc w r w' evs :
  for_each (video_body C) l acc w = (r, w', evs) ->
  Forall (fun ev => is_video_filter_event ev = true) evs /\
  usage_cache w' = usage_cache w /\
  propagates r evs /\
  forall acc', r = Ok acc' ->
    exists outs : list (list Event * option Token),
      Forall2 (fun t o => video_turn t o.1 /\
                          from_option (kept_from t o.1) True o.2) l outs /\
      evs = concat outs.*1 /\ acc' = acc ++ omap snd outs.
Proof.
  intros Hrun. split; [|split; [|split]].
  - eapply (for_each_inv (video_body C) (fun _ _ => True)
              (Forall (fun ev => is_video_filter_event ev = true))
              l) with (evs0 := []) in Hrun as [HQ _]; [done| |done|done].
    intros x a w0 evs0 r0 w0' evs1 _ _ HQ Hb. split; [|done].
    apply Forall_app. split; [done|]. by apply video_body_spec in Hb as [? _].
  - eapply for_each_cache; [|exact Hrun].
    intros x a w0 r0 w0' evs0 Hb. by apply video_body_spec in Hb as (_ & ? & _).
  - eapply for_each_propagates; [|exact Hrun].
    intros x a w0 r0 w0' evs0 Hb. by apply video_body_spec in Hb as (_ & _ & ? & _).
  - intros acc' ->.
    eapply (for_each_outs (video_body C)
              (fun t seg o => video_turn t seg /\
                              from_option (kept_from t seg) True o));
      [|exact Hrun].
    intros x a w0 a' w0' evs0. apply video_body_turn.
Qed.

(** *** The image filter *)

(** One turn of the image loop: it asks the lock, and the admission
    controller when there is one, and nothing else; it keeps the candidate
    itself, and only with the image flag, an awaited lock query that
    answered "free" and, when there is a controller, an awaited admission
    query that answered "yes". *)
Lemma image_body_spec (t : Token) (acc : list Token) w r w' evs :
  image_body C t acc w = (r, w', evs) ->
  Forall (fun ev => is_image_filter_event ev = true) evs /\
  usage_cache w' = usage_cache w /\
  propagates r evs /\
  forall acc', r = Ok acc' ->
    exists o : option Token,
      from_option
        (fun t' =>
           t' = t /\ image_enabled t = true /\
           (exists s1, is_locked C (token_id t) (ext w) = (Ok false, s1) /\
              match concurrency_manager C with
              | Some cm =>
                  exists s2, can_use_image cm (token_id t) s1 = (Ok true, s2) /\
                    evs = [EvAwait (IsLocked (token_id t)) None;
                           EvAwait (CanUseImage (token_id t)) None]
              | None => evs = [EvAwait (IsLocked (token_id t)) None]
              end)) True o /\
      acc' = acc ++ option_list o.
Proof.
  intros H. unfold image_body in H.
  destruct (image_enabled t) eqn:Ei; simpl in H;
    [|injection H as <- <- <-; split; [constructor|split; [done|]];
      split; [constructor|]; intros acc' [= <-]; exists None;
      split; [done|by rewrite app_nil_r]].
  destruct (concurrency_manager C) as [cm|] eqn:Ecm.
  all: run_body H.
  all: split; [repeat constructor|split; [done|]].
  all: split; [solve_propagates|].
  all: intros acc' [= <-].
  all: first
    [ (exists None); split; [done|by rewrite app_nil_r]
    | (exists (Some t)); split; [|done]; simpl ].
  all: repeat match goal with
         | H : negb ?b = _ |- _ => destruct b; simplify_eq/=
         end.
  all: split; [done|]; split; [done|]; eexists; split; [done|].
  - eexists. by split.
  - done.
Qed.

(** The image loop as a whole: what it builds is a sub-list of what it is
    given, every element with the image flag. *)
Lemma image_filter_spec (l : list Token) acc w r w' evs :
  for_each (image_body C) l acc w = (r, w', evs) ->
  Forall (fun ev => is_image_filter_event ev = true) evs /\
  usage_cache w' = usage_cache w /\
  propagates r evs /\
  forall acc', r = Ok acc' ->
    exists kept, acc' = acc ++ kept /\ kept `sublist_of` l /\
      Forall (fun t => image_enabled t = true /\
                       EvAwait (IsLocked (token_id t)) None ∈ evs) kept.
Proof.
  intros Hrun. split; [|split; [|split]].
  - eapply (for_each_inv (image_body C) (fun _ _ => True)
              (Forall (fun ev => is_image_filter_event ev = true))
              l) with (evs0 := []) in Hrun as [HQ _]; [done| |done|done].
    intros x a w0 evs0 r0 w0' evs1 _ _ HQ Hb. split; [|done].
    apply Forall_app. split; [done|]. by apply image_body_spec in Hb as [? _].
  - eapply for_each_cache; [|exact Hrun].
    intros x a w0 r0 w0' evs0 Hb. by apply image_body_spec in Hb as (_ & ? & _).
  - eapply for_each_propagates; [|exact Hrun].
    intros x a w0 r0 w0' evs0 Hb. by apply image_body_spec in Hb as (_ & _ & ? & _).
  - intros acc' ->.
    eapply (for_each_outs (image_body C)
              (fun t seg o =>
                 from_option (fun t' => t' = t /\ image_enabled t = true /\
                    EvAwait (IsLocked (token_id t)) None ∈ seg) True o))
      in Hrun as (outs & Houts & -> & ->).
    + exists (omap snd outs). split; [done|].
      clear -Houts. induction Houts as [|t [seg [t'|]] l outs Ht _ IH]; simpl in *.
      * split; [constructor|constructor].
      * destruct Ht as (-> & Hi & Hev). destruct IH as [IH1 IH2].
        split; [by constructor|]. constructor; [split; [done|set_solver]|].
        eapply Forall_impl; [exact IH2|]. intros t0 [? ?]. split; [done|set_solver].
      * destruct IH as [IH1 IH2]. split; [by constructor|].
        eapply Forall_impl; [exact IH2|]. intros t0 [? ?]. split; [done|set_solver].
    + intros x a w0 a' w0' evs0 Hb.
      apply image_body_spec in Hb as (_ & _ & _ & Hb).
      destruct (Hb a' eq_refl) as (o & Ho & ->). exists o. split; [|done].
      destruct o as [t'|]; [|done]. simpl in *.
      destruct Ho as (-> & Hi & s1 & _ & Hev). split; [done|]. split; [done|].
      destruct (concurrency_manager C); [destruct Hev as (? & _ & ->)|subst evs0];
        set_solver.
Qed.

(** *** The video admission filter *)

Lemma admission_body_spec (cm : ConcurrencyManager S) (t : Token)
    (acc : list Token) w r w' evs :
  admission_body cm t acc w = (r, w', evs) ->
  Forall (fun ev => is_can_use_video ev = true) evs /\
  usage_cache w' = usage_cache w /\
  propagates r evs /\
  forall acc', r = Ok acc' ->
    exists o : option Token,
      from_option (fun t' => t' = t) True o /\ acc' = acc ++ option_list o.
Proof.
  intros H. unfold admission_body in H. run_body H.
  all: split; [repeat constructor|split; [done|]].
  all: split; [solve_propagates|].
  all: intros acc' [= <-].
  - by exists (Some t).
  - exists None. split; [done|by rewrite app_nil_r].
Qed.

Lemma admission_filter_spec (cm : ConcurrencyManager S) (l : list Token)
    acc w r w' evs :
  for_each (admission_body cm) l acc w = (r, w', evs) ->
  Forall (fun ev => is_can_use_video ev = true) evs /\
  usage_cache w' = usage_cache w /\
  propagates r evs /\
  forall acc', r = Ok acc' ->
    exists kept, acc' = acc ++ kept /\ kept `sublist_of` l.
Proof.
  intros Hrun. split; [|split; [|split]].
  - eapply (for_each_inv (admission_body cm) (fun _ _ => True)
              (Forall (fun ev => is_can_use_video ev = true))
              l) with (evs0 := []) in Hrun as [HQ _]; [done| |done|done].
    intros x a w0 evs0 r0 w0' evs1 _ _ HQ Hb. split; [|done].
    apply Forall_app. split; [done|].
    by apply admission_body_spec in Hb as [? _].
  - eapply for_each_cache; [|exact Hrun].
    intros x a w0 r0 w0' evs0 Hb.
    by apply admission_body_spec in Hb as (_ & ? & _).
  - eapply for_each_propagates; [|exact Hrun].
    intros x a w0 r0 w0' evs0 Hb.
    by apply admission_body_spec in Hb as (_ & _ & ? & _).
  - intros acc' ->.
    eapply (for_each_outs (admission_body cm)
              (fun t seg o => from_option (fun t' => t' = t) True o))
      in Hrun as (outs & Houts & -> & ->).
    + exists (omap snd outs). split; [done|].
      clear -Houts.
      induction Houts as [|t [seg [t'|]] l outs Ht _ IH]; simpl in *.
      * constructor.
      * subst t'. by constructor.
      * by constructor.
    + intros x a w0 a' w0' evs0 Hb.
      apply admission_body_spec in Hb as (_ & _ & _ & Hb).
      exact (Hb a' eq_refl).
Qed.

(** *** Selection *)

(** [random.choice] on a non-empty list returns one of its elements. *)
Lemma random_choice_spec (tokens : list Token) w r w' evs :
  tokens <> [] ->
  random_choice C tokens w = (r, w', evs) ->
  usage_cache w' = usage_cache w /\
  exists t n k, r = Ok (Some t) /\ t ∈ tokens /\ evs = [EvRandBelow n k].
Proof.
  intros Hne H. unfold random_choice in H.
  destruct tokens as [|t0 rest] eqn:E; [done|]. rewrite <- E in *.
  destruct (randbelow C (length tokens) (ext w)) as [k s].
  assert (k mod length tokens < length tokens)%nat as Hlt.
  { apply Nat.mod_upper_bound. subst tokens. simpl. lia. }
  apply lookup_lt_is_Some_2 in Hlt as [t Ht].
  rewrite Ht in H. injection H as <- <- <-. split; [done|].
  exists t, (length tokens), (k mod length tokens)%nat.
  split; [done|]. split; [|done]. by eapply list_elem_of_lookup_2.
Qed.

(** The round-robin selector on a non-empty list: it returns one of the
    candidates, touches nothing outside the usage cache, and creates the
    persistence task after leaving the critical section. *)
Lemma select_round_robin_spec (tokens : list Token)
    (for_image for_video : bool) (w : World S) r w' evs :
  tokens <> [] ->
  _select_round_robin tokens for_image for_video w = (r, w', evs) ->
  ext w' = ext w /\
  exists t, r = Ok (Some t) /\ t ∈ tokens /\
    evs = [EvLockAcquire; EvLockRelease; EvCreateTask (token_id t); EvLogInfo].
Proof.
  intros Hne H. destruct tokens as [|t0 rest]; [done|].
  destruct (critical_section_least_used t0 rest (usage_cache w))
    as (i & sel & cur & Hcs & Hi & _).
  unfold _select_round_robin, bind, emit, get_cache in H.
  rewrite Hcs in H. simpl in H. injection H as <- <- <-.
  split; [done|]. exists sel. split; [done|]. split; [|done].
  by eapply list_elem_of_lookup_2.
Qed.

(** Reading the scheduling mode and selecting from a non-empty list:
    one of the candidates is returned, unless the mode query raises. *)
Lemma select_by_mode_spec (tokens : list Token) (for_image for_video : bool)
    w r w' evs :
  tokens <> [] ->
  select_by_mode C tokens for_image for_video w = (r, w', evs) ->
  Forall (fun ev => is_selection_event ev = true) evs /\
  propagates r evs /\
  forall o, r = Ok o -> exists t, o = Some t /\ t ∈ tokens.
Proof.
  intros Hne H. unfold select_by_mode in H.
  apply bind_inv in H
    as [(mode & w1 & evs1 & evs2 & Hm & Hsel & ->)|(e & Hm & ->)].
  - assert (evs1 = [EvAwait GetSchedulingMode None]) as ->.
    { unfold await in Hm. destruct (get_scheduling_mode C (ext w)) as [[?|?] ?];
        by simplify_eq. }
    destruct (String.eqb mode "round_robin").
    + apply select_round_robin_spec in Hsel as (_ & t & -> & Ht & ->); [|done].
      split; [repeat constructor|]. split; [repeat constructor|].
      intros o [= <-]. by exists t.
    + apply random_choice_spec in Hsel as (_ & t & n & k & -> & Ht & ->); [|done].
      split; [repeat constructor|]. split; [repeat constructor|].
      intros o [= <-]. by exists t.
  - pose proof (await_propagates _ _ _ _ _ _ Hm) as Hp.
    unfold await in Hm. destruct (get_scheduling_mode C (ext w)) as [[?|?] ?];
      simplify_eq.
    split; [repeat constructor|]. split; [done|]. intros o [=].
Qed.

(** *** The workload stage *)

(** The image branch: the image filter, then the selection among what it
    kept.  The video flag of the request plays no part. *)
Lemma image_branch_spec (for_video_generation : bool) (pool : list Token)
    w r w' evs :
  workload_stage C true for_video_generation pool w = (r, w', evs) ->
  propagates r evs /\
  exists evs3 evs4,
    evs = evs3 ++ evs4 /\
    Forall (fun ev => is_image_filter_event ev = true) evs3 /\
    Forall (fun ev => is_selection_event ev = true) evs4 /\
    forall o, r = Ok o ->
      exists kept w1,
        for_each (image_body C) pool [] w = (Ok kept, w1, evs3) /\
        match o with
        | Some t =>
            t ∈ kept /\ t ∈ pool /\ image_enabled t = true /\
            EvAwait (IsLocked (token_id t)) None ∈ evs3 /\
            select_by_mode C kept true false w1 = (Ok (Some t), w', evs4)
        | None => kept = [] /\ evs4 = []
        end.
Proof.
  intros H. unfold workload_stage in H.
  apply bind_inv in H
    as [(kept & w1 & evs1 & evs2 & Hf & Hsel & ->)|(e & Hf & ->)].
  - pose proof Hf as Hf'.
    apply image_filter_spec in Hf' as (Hev & _ & Hp & Hk).
    destruct (Hk kept eq_refl) as (kept' & Heq & Hsub & Hall).
    simpl in Heq. subst kept'.
    destruct kept as [|t0 rest] eqn:E.
    + injection Hsel as <- <- <-. split; [by rewrite app_nil_r|].
      exists evs1, []. split; [done|]. split; [done|]. split; [constructor|].
      intros o [= <-]. by eexists [], _.
    + rewrite <- E in *. pose proof Hsel as Hsel'.
      apply select_by_mode_spec in Hsel' as (Hev2 & Hp2 & Ht); [|by subst].
      split; [by eapply propagates_app|].
      exists evs1, evs2. split; [done|]. split; [done|]. split; [done|].
      intros o ->. destruct (Ht o eq_refl) as (t & -> & Hin).
      exists kept, w1. split; [done|]. split; [done|].
      split; [by eapply elem_of_sublist|].
      rewrite Forall_forall in Hall. destruct (Hall t Hin) as [Hi Hl].
      by repeat split.
  - apply image_filter_spec in Hf as (Hev & _ & Hp & _).
    split; [done|]. exists evs, []. split; [by rewrite app_nil_r|].
    split; [done|]. split; [constructor|]. intros o [=].
Qed.

Lemma image_event_is_workload ev :
  is_image_filter_event ev = true -> is_workload_event ev = true.
Proof. unfold is_workload_event. by intros ->. Qed.

Lemma selection_event_is_workload ev :
  is_selection_event ev = true -> is_workload_event ev = true.
Proof. unfold is_workload_event. intros ->. by rewrite !orb_true_r. Qed.

Lemma admission_event_is_workload ev :
  is_can_use_video ev = true -> is_workload_event ev = true.
Proof. unfold is_workload_event. intros ->. by rewrite orb_true_r. Qed.

(** The workload stage on a non-empty pool, whatever the branch: a token
    it returns is one of the pool, and no exception starts in it. *)
Lemma workload_stage_spec (for_image_generation for_video_generation : bool)
    (pool : list Token) w r w' evs :
  pool <> [] ->
  workload_stage C for_image_generation for_video_generation pool w
  = (r, w', evs) ->
  Forall (fun ev => is_workload_event ev = true) evs /\
  propagates r evs /\
  forall t, r = Ok (Some t) ->
    t ∈ pool /\ (for_image_generation = true -> image_enabled t = true).
Proof.
  intros Hne H. destruct for_image_generation.
  { apply image_branch_spec in H
      as (Hp & evs3 & evs4 & -> & H3 & H4 & Ht).
    split; [|split; [done|]].
    - apply Forall_app. split.
      + eapply Forall_impl; [exact H3|]. apply image_event_is_workload.
      + eapply Forall_impl; [exact H4|]. apply selection_event_is_workload.
    - intros t ->. destruct (Ht _ eq_refl) as (kept & w1 & _ & _ & Hin & Hi & _).
      by split. }
  unfold workload_stage in H.
  assert (forall tokens fv w0 r0 w0' evs0,
             tokens <> [] ->
             select_by_mode C tokens false fv w0 = (r0, w0', evs0) ->
             Forall (fun ev => is_workload_event ev = true) evs0 /\
             propagates r0 evs0 /\
             forall t, r0 = Ok (Some t) -> t ∈ tokens) as Hplain.
  { intros tokens fv w0 r0 w0' evs0 Hne0 Hs.
    apply select_by_mode_spec in Hs as (Hev & Hp & Ht); [|done].
    split; [|split; [done|]].
    - eapply Forall_impl; [exact Hev|]. apply selection_event_is_workload.
    - intros t ->. by destruct (Ht _ eq_refl) as (t' & [= <-] & ?). }
  destruct for_video_generation; [destruct (concurrency_manager C) as [cm|]|].
  - apply bind_inv in H
      as [(kept & w1 & evs1 & evs2 & Hf & Hsel & ->)|(e & Hf & ->)].
    + apply admission_filter_spec in Hf as (Hev & _ & Hp & Hk).
      destruct (Hk kept eq_refl) as (kept' & Heq & Hsub). simpl in Heq.
      subst kept'.
      assert (Forall (fun ev => is_workload_event ev = true) evs1) as Hev1.
      { eapply Forall_impl; [exact Hev|]. apply admission_event_is_workload. }
      destruct kept as [|t0 rest] eqn:E.
      * injection Hsel as <- <- <-. rewrite app_nil_r.
        split; [done|]. split; [done|]. intros t [=].
      * rewrite <- E in *.
        apply Hplain in Hsel as (Hev2 & Hp2 & Ht); [|by subst].
        split; [by apply Forall_app|]. split; [by eapply propagates_app|].
        intros t Hr. split; [|done]. eapply elem_of_sublist; [|exact Hsub].
        by apply Ht.
    + apply admission_filter_spec in Hf as (Hev & _ & Hp & _).
      split; [|split; [done|intros t [=]]].
      eapply Forall_impl; [exact Hev|]. apply admission_event_is_workload.
  - apply Hplain in H as (? & ? & Ht); [|done].
    split; [done|]. split; [done|]. intros t Hr. split; [by apply Ht|done].
  - apply Hplain in H as (? & ? & Ht); [|done].
    split; [done|]. split; [done|]. intros t Hr. split; [by apply Ht|done].
Qed.

(** *** The renewal pass *)

Lemma renewal_body_spec (t : Token) (n : nat) w r w' evs :
  renewal_body C t n w = (r, w', evs) ->
  Forall (fun ev => is_renewal_event ev = true) evs /\
  usage_cache w' = usage_cache w /\
  propagates r evs /\
  (forall n', r = Ok n' -> renewal_turn t evs) /\
  renewed_in [t] evs.
Proof.
  intros H. unfold renewal_body in H. unfold renewal_turn, renewed_in.
  destruct (is_active t) eqn:Ea; [destruct (expiry_time t) as [e|] eqn:Ee|].
  all: first [unfold ret in H; injection H as <- <- <-|run_body H].
  all: split; [repeat constructor|split; [done|]].
  all: split; [solve_propagates|].
  all: split;
    [ intros n' ?; simplify_eq;
      try (eexists; match goal with
                    | H : (_ <=? _) = _ |- _ => by rewrite H
                    end); done
    | intros i ans Hin; set_unfold in Hin; destruct_or?; simplify_eq ].
  all: match goal with
       | H : (_ <=? _) = true |- _ => apply Z.leb_le in H
       end.
  all: eexists t, e, _, [], []; split; [by left|]; done.
Qed.

Lemma renewed_in_app (l : list Token) (t : Token) evs0 evs :
  t ∈ l -> renewed_in l evs0 -> renewed_in [t] evs -> renewed_in l (evs0 ++ evs).
Proof.
  intros Ht H0 H1 i ans Hin. apply elem_of_app in Hin as [Hin|Hin].
  - destruct (H0 i ans Hin) as (t0 & e & z & pre & post & ? & ? & ? & ? & ? & ->).
    exists t0, e, z, pre, (post ++ evs). repeat (split; [done|]).
    by rewrite <- !app_assoc.
  - destruct (H1 i ans Hin) as (t0 & e & z & pre & post & Hin0 & ? & ? & ? & ? & ->).
    apply list_elem_of_singleton in Hin0 as ->.
    exists t, e, z, (evs0 ++ pre), post. repeat (split; [done|]).
    by rewrite <- !app_assoc.
Qed.

Lemma renewal_loop_spec (l : list Token) n w r w' evs :
  for_each (renewal_body C) l n w = (r, w', evs) ->
  Forall (fun ev => is_renewal_event ev = true) evs /\
  usage_cache w' = usage_cache w /\
  propagates r evs /\
  renewed_in l evs /\
  forall n', r = Ok n' ->
    exists segs, Forall2 renewal_turn l segs /\ evs = concat segs.
Proof.
  intros Hrun. split; [|split; [|split; [|split]]].
  - eapply (for_each_inv (renewal_body C) (fun _ _ => True)
              (Forall (fun ev => is_renewal_event ev = true))
              l) with (evs0 := []) in Hrun as [HQ _]; [done| |done|done].
    intros x a w0 evs0 r0 w0' evs1 _ _ HQ Hb. split; [|done].
    apply Forall_app. split; [done|].
    by apply renewal_body_spec in Hb as [? _].
  - eapply for_each_cache; [|exact Hrun].
    intros x a w0 r0 w0' evs0 Hb.
    by apply renewal_body_spec in Hb as (_ & ? & _).
  - eapply for_each_propagates; [|exact Hrun].
    intros x a w0 r0 w0' evs0 Hb.
    by apply renewal_body_spec in Hb as (_ & _ & ? & _).
  - eapply (for_each_inv (renewal_body C) (fun _ _ => True) (renewed_in l) l)
      with (evs0 := []) in Hrun as [HQ _]; [done| |done|].
    + intros x a w0 evs0 r0 w0' evs1 Hx _ HQ Hb. split; [|done].
      apply renewed_in_app with x; [done|done|].
      by apply renewal_body_spec in Hb as (_ & _ & _ & _ & ?).
    + intros i ans Hin. by apply elem_of_nil in Hin.
  - intros n' ->. eapply for_each_segs; [|exact Hrun].
    intros x a w0 a' w0' evs0 Hb.
    apply renewal_body_spec in Hb as (_ & _ & _ & Hb & _). by eapply Hb.
Qed.

(** The pass as a whole.  With the flag off nothing happens; with the flag
    on the listing is awaited, then one turn per listed token, and a
    renewal is awaited for exactly the active tokens whose expiry is
    within 24 hours of the reading taken in their turn; an exception of
    the listing or of a renewal ends the pass with that exception. *)
Lemma renewal_pass_spec w r w' evs :
  renewal_pass C w = (r, w', evs) ->
  Forall (fun ev => is_renewal_event ev = true) evs /\
  usage_cache w' = usage_cache w /\
  propagates r evs /\
  (at_auto_refresh_enabled C = false -> r = Ok tt /\ w' = w /\ evs = []) /\
  (forall i ans, EvAwait (AutoRefreshExpiringToken i) ans ∈ evs ->
     at_auto_refresh_enabled C = true /\
     exists all_tokens s1,
       get_all_tokens C (ext w) = (Ok all_tokens, s1) /\
       renewed_in all_tokens evs) /\
  (at_auto_refresh_enabled C = true -> r = Ok tt ->
     exists all_tokens s1 segs,
       get_all_tokens C (ext w) = (Ok all_tokens, s1) /\
       Forall2 renewal_turn all_tokens segs /\
       evs = [EvLogInfo; EvAwait GetAllTokens None; EvLogInfo]
             ++ concat segs ++ [EvLogInfo]).
Proof.
  intros H. unfold renewal_pass in H.
  destruct (at_auto_refresh_enabled C) eqn:Eflag.
  2:{ injection H as <- <- <-. split; [constructor|]. split; [done|].
      split; [constructor|]. split; [done|]. split; [|done].
      intros i ans Hin. by apply elem_of_nil in Hin. }
  unfold bind at 1 in H. unfold log_info at 1, emit at 1 in H.
  unfold bind at 1 in H. unfold await at 1 in H.
  destruct (get_all_tokens C (ext w)) as [[all_tokens|e] s1] eqn:Eall.
  2:{ injection H as <- <- <-. split; [repeat constructor|]. split; [done|].
      split; [solve_propagates|]. split; [done|]. split; [|done].
      intros i ans Hin. set_unfold in Hin. destruct_or?; simplify_eq. }
  unfold bind at 1 in H. unfold log_info at 1, emit at 1 in H.
  destruct (bind _ _ _) as [[r2 w2] evs2] eqn:Eloop in H.
  injection H as <- <- <-.
  apply bind_inv in Eloop
    as [(n & w3 & evs3 & evs4 & Hloop & Hlog & ->)|(e & Hloop & ->)].
  - injection Hlog as <- <- <-.
    apply renewal_loop_spec in Hloop as (Hev & Hc & Hp & Hren & Hsegs).
    split; [|split; [done|split; [|split; [done|split]]]].
    + repeat constructor. apply Forall_app. split; [done|repeat constructor].
    + simpl. repeat constructor. apply Forall_app.
      split; [done|repeat constructor].
    + intros i ans Hin. split; [done|]. exists all_tokens, s1.
      split; [done|]. intros i' ans' Hin'.
      assert (EvAwait (AutoRefreshExpiringToken i') ans' ∈ evs3) as Hin3.
      { set_unfold in Hin'. destruct_or?; simplify_eq; done. }
      destruct (Hren i' ans' Hin3)
        as (t & e & z & pre & post & ? & ? & ? & ? & ? & ->).
      exists t, e, z,
        ([EvLogInfo; EvAwait GetAllTokens None; EvLogInfo] ++ pre),
        (post ++ [EvLogInfo]).
      repeat (split; [done|]). simpl. by rewrite <- !app_assoc.
    + intros _ _. destruct (Hsegs n eq_refl) as (segs & Hsegs' & ->).
      by exists all_tokens, s1, segs.
  - apply renewal_loop_spec in Hloop as (Hev & Hc & Hp & Hren & _).
    split; [|split; [done|split; [|split; [done|split]]]].
    + by repeat constructor.
    + destruct Hp as (c & pre & -> & Hpre).
      exists c, ([EvLogInfo; EvAwait GetAllTokens None; EvLogInfo] ++ pre).
      split; [done|]. by repeat constructor.
    + intros i ans Hin. split; [done|]. exists all_tokens, s1.
      split; [done|]. intros i' ans' Hin'.
      assert (EvAwait (AutoRefreshExpiringToken i') ans' ∈ evs2) as Hin3.
      { set_unfold in Hin'. destruct_or?; simplify_eq; done. }
      destruct (Hren i' ans' Hin3)
        as (t & e0 & z & pre & post & ? & ? & ? & ? & ? & ->).
      exists t, e0, z,
        ([EvLogInfo; EvAwait GetAllTokens None; EvLogInfo] ++ pre), post.
      by repeat (split; [done|]).
    + intros _ [=].
Qed.

(** *** The stages of a selection *)

(** The video stage on a non-empty pool: the video filter when the request
    is for video, then the workload stage on what the filter kept. *)
Lemma video_stage_spec (for_image_generation for_video_generation : bool)
    (pool : list Token) w r w' evs :
  pool <> [] ->
  video_stage C for_image_generation for_video_generation pool w
  = (r, w', evs) ->
  propagates r evs /\
  exists evs2 evs3,
    evs = evs2 ++ evs3 /\
    Forall (fun ev => is_video_filter_event ev = true) evs2 /\
    Forall (fun ev => is_workload_event ev = true) evs3 /\
    (for_video_generation = false -> evs2 = []) /\
    (((forall t, r <> Ok (Some t)) /\ evs3 = []) \/
     exists pool' w2,
       (if for_video_generation
        then for_each (video_body C) pool [] w = (Ok pool', w2, evs2)
        else pool' = pool /\ w2 = w) /\
       pool' <> [] /\
       workload_stage C for_image_generation for_video_generation pool' w2
       = (r, w', evs3)).
Proof.
  intros Hne H. unfold video_stage in H. destruct for_video_generation.
  - apply bind_inv in H
      as [(kept & w1 & evs1 & evs2 & Hf & Hw & ->)|(e & Hf & ->)].
    + pose proof Hf as Hf'.
      apply video_filter_spec in Hf' as (Hev & _ & Hp & _).
      destruct kept as [|t0 rest] eqn:E.
      * injection Hw as <- <- <-. split; [by rewrite app_nil_r|].
        exists evs1, []. split; [done|]. split; [done|].
        split; [constructor|]. split; [done|]. by left.
      * rewrite <- E in *. assert (kept <> []) as Hk by (by subst).
        pose proof Hw as Hw'.
        apply workload_stage_spec in Hw' as (Hev3 & Hp3 & _); [|done].
        split; [by eapply propagates_app|].
        exists evs1, evs2. split; [done|]. split; [done|]. split; [done|].
        split; [done|]. right. by exists kept, w1.
    + apply video_filter_spec in Hf as (Hev & _ & Hp & _).
      split; [done|]. exists evs, []. split; [by rewrite app_nil_r|].
      split; [done|]. split; [constructor|]. split; [done|]. by left.
  - pose proof H as H'.
    apply workload_stage_spec in H' as (Hev3 & Hp3 & _); [|done].
    split; [done|]. exists [], evs. split; [done|]. split; [constructor|].
    split; [done|]. split; [done|]. right. by exists pool, w.
Qed.

(** The pool the filters start from: the active tokens, or those of them
    on the Pro plan when the request requires it. *)
Lemma plan_stage_spec (for_image_generation for_video_generation require_pro : bool)
    (active : list Token) w r w' evs :
  plan_stage C for_image_generation for_video_generation require_pro active w
  = (r, w', evs) ->
  let pool := if require_pro then List.filter is_pro active else active in
  (require_pro = true -> pool = [] -> r = Ok None /\ w' = w /\ evs = []) /\
  (pool <> [] ->
   video_stage C for_image_generation for_video_generation pool w
   = (r, w', evs)).
Proof.
  intros H pool. unfold plan_stage in H. subst pool.
  destruct require_pro.
  - destruct (List.filter is_pro active) as [|t0 rest] eqn:E.
    + injection H as <- <- <-. by split.
    + split; [done|]. by intros _.
  - split; [done|]. by intros _.
Qed.

(** A whole selection, stage by stage.  The events are those of the
    renewal pass, then the pool fetch, then the video filter, then the
    workload stage; no exception starts anywhere but in an awaited call;
    and either the selection ended before the workload stage, without a
    token, or the pass and the fetch returned, the pool and the video
    filter's output were non-empty, and the result is that of the
    workload stage. *)
Lemma select_token_stages
    (for_image_generation for_video_generation require_pro : bool)
    w r w' evs :
  select_token C for_image_generation for_video_generation require_pro w
  = (r, w', evs) ->
  propagates r evs /\
  exists evs1 evs_fetch evs2 evs3 r1 w1,
    renewal_pass C w = (r1, w1, evs1) /\
    evs = evs1 ++ evs_fetch ++ evs2 ++ evs3 /\
    Forall (fun ev => is_renewal_event ev = true) evs1 /\
    (evs_fetch = [] \/ exists ans, evs_fetch = [EvAwait GetActiveTokens ans]) /\
    Forall (fun ev => is_video_filter_event ev = true) evs2 /\
    Forall (fun ev => is_workload_event ev = true) evs3 /\
    (for_video_generation = false -> evs2 = []) /\
    (((forall t, r <> Ok (Some t)) /\ evs3 = []) \/
     exists active s2 pool',
       r1 = Ok tt /\
       get_active_tokens C (ext w1) = (Ok active, s2) /\
       evs_fetch = [EvAwait GetActiveTokens None] /\
       let pool := if require_pro then List.filter is_pro active else active in
       let w2 := mkWorld s2 (usage_cache w1) in
       pool <> [] /\
       exists w3,
         (if for_video_generation
          then for_each (video_body C) pool [] w2 = (Ok pool', w3, evs2)
          else pool' = pool /\ w3 = w2) /\
         pool' <> [] /\
         workload_stage C for_image_generation for_video_generation pool' w3
         = (r, w', evs3)).
Proof.
  intros H. unfold select_token in H.
  apply bind_inv in H
    as [([] & w1 & evs1 & evs' & Hren & H & ->)|(e & Hren & ->)].
  2:{ pose proof Hren as Hren'.
      apply renewal_pass_spec in Hren' as (Hev & _ & Hp & _).
      split; [done|]. exists evs, [], [], [], (Raise e), w'.
      split; [done|]. split; [by rewrite app_nil_r|]. split; [done|].
      split; [by left|]. split; [constructor|]. split; [constructor|].
      split; [done|]. by left. }
  pose proof Hren as Hren'.
  apply renewal_pass_spec in Hren' as (Hev1 & _ & Hp1 & _).
  apply bind_inv in H
    as [(active & w2 & evsf & evs'' & Hact & H & ->)|(e & Hact & ->)].
  2:{ pose proof (await_propagates _ _ _ _ _ _ Hact) as Hpf.
      unfold await in Hact.
      destruct (get_active_tokens C (ext w1)) as [[?|?] ?]; simplify_eq.
      split; [by eapply propagates_app|].
      eexists evs1, [_], [], [], (Ok tt), w1.
      split; [done|]. split; [done|]. split; [done|].
      split; [right; by eexists|]. split; [constructor|].
      split; [constructor|]. split; [done|]. by left. }
  unfold await in Hact.
  destruct (get_active_tokens C (ext w1)) as [[active'|?] s2] eqn:Eact;
    simplify_eq.
  assert (propagates (Ok tt) [EvAwait GetActiveTokens None]) as Hpf
    by repeat constructor.
  destruct active as [|t0 rest] eqn:E.
  { injection H as <- <- <-. split.
    - eapply propagates_app; [exact Hp1|]. simpl. repeat constructor.
    - eexists evs1, [_], [], [], (Ok tt), w1.
      split; [done|]. split; [done|]. split; [done|].
      split; [right; by eexists|]. split; [constructor|].
      split; [constructor|]. split; [done|]. by left. }
  rewrite <- E in *. assert (active <> []) as Hne by (by subst).
  apply plan_stage_spec in H as [Hempty Hfull].
  destruct (decide ((if require_pro then List.filter is_pro active else active)
                    = [])) as [Hp0|Hp0].
  { assert (require_pro = true) as Hrp by (destruct require_pro; done).
    destruct (Hempty Hrp Hp0) as (-> & -> & ->). split.
    - eapply propagates_app; [exact Hp1|]. simpl. repeat constructor.
    - eexists evs1, [_], [], [], (Ok tt), w1.
      split; [done|]. split; [done|]. split; [done|].
      split; [right; by eexists|]. split; [constructor|].
      split; [constructor|]. split; [done|]. by left. }
  specialize (Hfull Hp0).
  apply video_stage_spec in Hfull
    as (Hpv & evs2 & evs3 & -> & Hev2 & Hev3 & Hfv & Ht); [|done].
  split.
  - eapply propagates_app; [exact Hp1|].
    eapply propagates_app; [exact Hpf|done].
  - eexists evs1, [_], evs2, evs3, (Ok tt), w1.
    split; [done|]. split; [done|]. split; [done|].
    split; [right; by eexists|]. split; [done|]. split; [done|].
    split; [done|]. destruct Ht as [Ht|(pool' & w3 & Hvid & Hne' & Hwork)];
      [by left|].
    right. exists active, s2, pool'. split; [done|]. split; [done|].
    split; [done|]. split; [done|]. by exists w3.
Qed.

(** *** The turns of the filter loops *)

Lemma world_eta (w : World S) : mkWorld (ext w) (usage_cache w) = w.
Proof. by destruct w. Qed.

(** The body of the video loop does what [video_turn_run] describes. *)
Lemma video_body_run (t : Token) (acc : list Token) (w : World S) :
  video_body C t acc w
  = (turn_result acc (video_turn_run C t (ext w)).1.2,
     mkWorld (video_turn_run C t (ext w)).2 (usage_cache w),
     (video_turn_run C t (ext w)).1.1).
Proof.
  destruct w as [s cache]. unfold video_body, video_turn_run. simpl.
  destruct (video_enabled t); simpl; [|done].
  destruct (sora2_supported t); simpl; [|done].
  unfold bind, await, clock, ret. simpl.
  repeat (case_match; simplify_eq/=); done.
Qed.

(** The body of the image loop does what [image_turn_run] describes. *)
Lemma image_body_run (t : Token) (acc : list Token) (w : World S) :
  image_body C t acc w
  = (turn_result acc (image_turn_run C t (ext w)).1.2,
     mkWorld (image_turn_run C t (ext w)).2 (usage_cache w),
     (image_turn_run C t (ext w)).1.1).
Proof.
  destruct w as [s cache]. unfold image_body, image_turn_run. simpl.
  destruct (image_enabled t); simpl; [|done].
  unfold bind, await, ret. simpl.
  repeat (case_match; simplify_eq/=); done.
Qed.

Lemma final_state_cons (s : S) (x : Turn S) (turns : list (Turn S)) :
  final_state s (x :: turns) = final_state x.2 turns.
Proof. unfold final_state. rewrite last_cons. by destruct (last turns). Qed.

(** A filter loop is the sequence of its turns. *)
Lemma filter_loop_run (body : Token -> list Token -> M S (list Token))
    (turn : Token -> S -> Turn S) :
  (forall t acc w,
      body t acc w
      = (turn_result acc (turn t (ext w)).1.2,
         mkWorld (turn t (ext w)).2 (usage_cache w),
         (turn t (ext w)).1.1)) ->
  forall l acc w,
    for_each body l acc w
    = (loop_result acc (filter_turns turn l (ext w)),
       mkWorld (final_state (ext w) (filter_turns turn l (ext w)))
               (usage_cache w),
       concat (filter_turns turn l (ext w)).*1.*1).
Proof.
  intros Hbody. induction l as [|t l IH]; intros acc w.
  - simpl. unfold ret, final_state. simpl. by rewrite world_eta.
  - simpl. unfold bind. rewrite Hbody, final_state_cons.
    destruct (turn t (ext w)) as [[seg o] s'] eqn:E. simpl.
    destruct o as [t'| |e]; simpl.
    + by rewrite IH.
    + by rewrite IH.
    + by rewrite app_nil_r.
Qed.

Lemma loop_result_ok (turns : list (Turn S)) : forall acc acc',
  loop_result acc turns = Ok acc' ->
  acc' = acc ++ omap kept_token turns /\
  Forall (fun x : Turn S => forall e, x.1.2 <> Raised e) turns.
Proof.
  induction turns as [|[[seg o] s'] turns IH]; intros acc acc' H; simpl in H.
  - injection H as <-. split; [by rewrite app_nil_r|constructor].
  - destruct o as [t| |e]; simpl in H; [| |done].
    + apply IH in H as [-> Hall]. split.
      * unfold kept_token at 2. simpl. by rewrite <- app_assoc.
      * by constructor.
    + apply IH in H as [-> Hall]. split; [done|]. by constructor.
Qed.

Lemma loop_result_raise (turns : list (Turn S)) : forall acc e,
  loop_result acc turns = Raise e ->
  exists x, x ∈ turns /\ x.1.2 = Raised e.
Proof.
  induction turns as [|[[seg o] s'] turns IH]; intros acc e H; simpl in H;
    [done|].
  destruct o as [t| |e']; simpl in H.
  - apply IH in H as (x & Hl & Hx). exists x. split; [by right|done].
  - apply IH in H as (x & Hl & Hx). exists x. split; [by right|done].
  - injection H as ->. eexists. split; [by left|done].
Qed.

(** Every turn of a loop is the turn of one of its candidates. *)
Lemma filter_turns_elem (turn : Token -> S -> Turn S) (l : list Token) :
  forall s x, x ∈ filter_turns turn l s ->
              exists t s0, t ∈ l /\ x = turn t s0.
Proof.
  induction l as [|t l IH]; intros s x Hx; simpl in Hx;
    [by apply elem_of_nil in Hx|].
  apply elem_of_cons in Hx as [->|Hx].
  - exists t, s. split; [by left|done].
  - destruct (turn t s).1.2; try (by apply elem_of_nil in Hx).
    + destruct (IH _ _ Hx) as (t' & s0 & ? & ?). exists t', s0.
      split; [by right|done].
    + destruct (IH _ _ Hx) as (t' & s0 & ? & ?). exists t', s0.
      split; [by right|done].
Qed.

(** A token of the list a loop built was kept by one of its turns. *)
Lemma kept_by_a_turn_run (turn : Token -> S -> Turn S) (l : list Token)
    (s : S) (t' : Token) :
  t' ∈ omap kept_token (filter_turns turn l s) ->
  exists t s0, t ∈ l /\ turn t s0 ∈ filter_turns turn l s /\
               (turn t s0).1.2 = Kept t'.
Proof.
  intros Hin. apply list_elem_of_omap in Hin as (x & Hx & Hk).
  destruct (filter_turns_elem _ _ _ _ Hx) as (t & s0 & Ht & ->).
  exists t, s0. split; [done|]. split; [done|].
  unfold kept_token in Hk. by destruct ((turn t s0).1.2); simplify_eq.
Qed.

(** The video stage of a request for video: the turns of the video loop,
    then the workload stage on what they kept. *)
Lemma video_stage_run (for_image_generation : bool) (pool : list Token)
    (w : World S) :
  video_stage C for_image_generation true pool w
  = let turns := filter_turns (video_turn_run C) pool (ext w) in
    let w3 := mkWorld (final_state (ext w) turns) (usage_cache w) in
    match loop_result [] turns with
    | Raise e => (Raise e, w3, concat turns.*1.*1)
    | Ok [] => (Ok None, w3, concat turns.*1.*1)
    | Ok kept =>
        let '(r, w', evs3) := workload_stage C for_image_generation true kept w3 in
        (r, w', concat turns.*1.*1 ++ evs3)
    end.
Proof.
  unfold video_stage, bind.
  rewrite (filter_loop_run _ _ video_body_run).
  destruct (loop_result _ _) as [[|t0 kept]|e]; simpl; [|done|done].
  by rewrite app_nil_r.
Qed.

(** A selection for video, down to the workload stage. *)
Lemma select_token_video_run (for_image_generation require_pro : bool)
    (w : World S) :
  select_token C for_image_generation true require_pro w
  = match renewal_pass C w with
    | (Raise e, w1, evs1) => (Raise e, w1, evs1)
    | (Ok _, w1, evs1) =>
        match get_active_tokens C (ext w1) with
        | (Raise e, s2) =>
            (Raise e, mkWorld s2 (usage_cache w1),
             evs1 ++ [EvAwait GetActiveTokens (Some e)])
        | (Ok active, s2) =>
            let turns :=
              filter_turns (video_turn_run C) (base_pool require_pro active) s2 in
            let w3 := mkWorld (final_state s2 turns) (usage_cache w1) in
            match loop_result [] turns with
            | Raise e =>
                (Raise e, w3,
                 evs1 ++ [EvAwait GetActiveTokens None] ++ concat turns.*1.*1)
            | Ok [] =>
                (Ok None, w3,
                 evs1 ++ [EvAwait GetActiveTokens None] ++ concat turns.*1.*1)
            | Ok kept =>
                let '(r, w', evs3) :=
                  workload_stage C for_image_generation true kept w3 in
                (r, w',
                 evs1 ++ [EvAwait GetActiveTokens None] ++ concat turns.*1.*1
                 ++ evs3)
            end
        end
    end.
Proof.
  unfold select_token, bind.
  destruct (renewal_pass C w) as [[[[]|e] w1] evs1]; [|done].
  unfold await.
  destruct (get_active_tokens C (ext w1)) as [[active|e] s2]; simpl; [|done].
  destruct active as [|t0 rest] eqn:E.
  { unfold base_pool. by destruct require_pro. }
  rewrite <- E. clear E t0 rest.
  unfold plan_stage, base_pool. destruct require_pro.
  - destruct (List.filter is_pro active) as [|p0 pros] eqn:E; [done|].
    rewrite <- E. rewrite video_stage_run. simpl.
    destruct (loop_result _ _) as [[|k0 kept]|e]; simpl; try done.
    by destruct (workload_stage _ _ _ _ _) as [[? ?] ?].
  - rewrite video_stage_run. simpl.
    destruct (loop_result _ _) as [[|k0 kept]|e]; simpl; try done.
    by destruct (workload_stage _ _ _ _ _) as [[? ?] ?].
Qed.

(** A token kept by a turn of the video loop comes from a candidate with
    the video flag and Sora2 support, and has no cooldown beyond the clock
    reading that closes the turn. *)
Lemma video_turn_kept (t : Token) (s : S) (t' : Token) :
  (video_turn_run C t s).1.2 = Kept t' ->
  video_enabled t = true /\ sora2_supported t = true /\
  match sora2_cooldown_until t' with
  | None => True
  | Some c' =>
      exists z2, last (video_turn_run C t s).1.1 = Some (EvNow z2) /\ c' <= z2
  end.
Proof.
  unfold video_turn_run.
  destruct (video_enabled t); simpl; [|done].
  destruct (sora2_supported t); simpl; [|done].
  intros Hk. split; [done|]. split; [done|].
  repeat (case_match; simplify_eq/=); try done; try congruence.
  all: repeat match goal with
         | H : (_ <? _) = false |- _ => apply Z.ltb_ge in H
         end.
  all: eexists; split; [reflexivity|]; congruence.
Qed.

(** A turn whose first clock reading has reached the cooldown: the quota
    refresh is awaited, then the re-read, and a token kept is the row
    read. *)
Lemma video_turn_refresh (t : Token) (s s1 : S) (c z : Z) :
  video_enabled t = true -> sora2_supported t = true ->
  sora2_cooldown_until t = Some c -> now C s = (z, s1) -> c <= z ->
  exists ans s2,
    refresh_sora2_remaining_if_cooldown_expired C (token_id t) s1 = (ans, s2) /\
    ((exists e,
         ans = Raise e /\
         video_turn_run C t s
         = ([EvNow z; EvAwait (RefreshSora2Remaining (token_id t)) (Some e)],
            Raised e, s2)) \/
     (exists row s3 rest,
         ans = Ok tt /\
         get_token C (token_id t) s2 = (row, s3) /\
         (video_turn_run C t s).1.1
         = [EvNow z; EvAwait (RefreshSora2Remaining (token_id t)) None;
            EvAwait (DbGetToken (token_id t))
                    match row with Ok _ => None | Raise e => Some e end]
           ++ rest /\
         Forall (fun ev => is_await ev = false) rest /\
         (forall e, row = Raise e -> (video_turn_run C t s).1.2 = Raised e) /\
         (row = Ok None -> (video_turn_run C t s).1.2 = Dropped) /\
         (forall t', (video_turn_run C t s).1.2 = Kept t' ->
                     row = Ok (Some t')))).
Proof.
  intros Hv Hs Hc Hnow Hle. unfold video_turn_run.
  rewrite Hv, Hs, Hc, Hnow. simpl.
  assert ((c <=? z) = true) as -> by by apply Z.leb_le.
  destruct (refresh_sora2_remaining_if_cooldown_expired C (token_id t) s1)
    as [[[]|e] s2]; eexists _, s2; (split; [reflexivity|]).
  2:{ left. by exists e. }
  right.
  destruct (get_token C (token_id t) s2) as [[[row|]|e] s3] eqn:Eg.
  - destruct (sora2_cooldown_until row) as [c1|].
    + destruct (now C s3) as [z2 s4].
      eexists _, s3, [EvNow z2]. split; [done|]. split; [done|].
      split; [done|]. split; [by repeat constructor|]. split; [done|].
      split; [done|]. simpl. intros t'. by destruct (z2 <? c1); intros [=->].
    + eexists _, s3, []. split; [done|]. split; [done|].
      split; [done|]. split; [constructor|]. split; [done|].
      split; [done|]. simpl. by intros t' [=->].
  - eexists _, s3, []. split; [done|]. split; [done|].
    split; [done|]. split; [constructor|]. split; [done|]. by split.
  - eexists _, s3, []. split; [done|]. split; [done|].
    split; [done|]. split; [constructor|]. split; [by intros ? [=->]|].
    by split.
Qed.

(** A turn whose first clock reading has not reached the cooldown: the
    clock is read again, and nothing else happens. *)
Lemma video_turn_no_refresh (t : Token) (s s1 : S) (c z : Z) :
  video_enabled t = true -> sora2_supported t = true ->
  sora2_cooldown_until t = Some c -> now C s = (z, s1) -> z < c ->
  exists z2 s2,
    now C s1 = (z2, s2) /\
    video_turn_run C t s
    = ([EvNow z; EvNow z2], if z2 <? c then Dropped else Kept t, s2).
Proof.
  intros Hv Hs Hc Hnow Hlt. unfold video_turn_run.
  rewrite Hv, Hs, Hc, Hnow. simpl.
  assert ((c <=? z) = false) as -> by by apply Z.leb_gt.
  destruct (now C s1) as [z2 s2]. by exists z2, s2.
Qed.

(** A token kept by a turn of the image loop is the candidate itself, with
    the image flag, a lock query that answered "free" and, when there is
    a concurrency manager, an image admission query that answered
    "yes". *)
Lemma image_turn_kept (t : Token) (s : S) (t' : Token) :
  (image_turn_run C t s).1.2 = Kept t' ->
  t' = t /\ image_enabled t = true /\
  exists s1,
    is_locked C (token_id t) s = (Ok false, s1) /\
    match concurrency_manager C with
    | Some cm =>
        exists s2,
          can_use_image cm (token_id t) s1 = (Ok true, s2) /\
          image_turn_run C t s
          = ([EvAwait (IsLocked (token_id t)) None;
              EvAwait (CanUseImage (token_id t)) None], Kept t, s2)
    | None =>
        image_turn_run C t s
        = ([EvAwait (IsLocked (token_id t)) None], Kept t, s1)
    end.
Proof.
  unfold image_turn_run.
  destruct (image_enabled t); simpl; [|done].
  destruct (is_locked C (token_id t) s) as [[[]|e] s1]; simpl; [done| |done].
  destruct (concurrency_manager C) as [cm|]; simpl.
  - destruct (can_use_image cm (token_id t) s1) as [[[]|e] s2] eqn:Ec;
      simpl; [|done|done].
    intros [= <-]. split; [done|]. split; [done|]. exists s1.
    split; [done|]. by exists s2.
  - intros [= <-]. split; [done|]. split; [done|]. by exists s1.
Qed.

(** A selection for video, turn by turn.  It ends with the exception of
    the renewal pass or of the pool fetch, or the video loop takes its
    turns on the pool, one after the other; an exception of a turn ends
    the selection, an empty list gives [None], and otherwise the workload
    stage runs on the tokens the turns kept, so that a token returned was
    kept by a turn of a candidate of the pool. *)
Lemma select_token_video_turns (for_image_generation require_pro : bool)
    w r w' evs :
  select_token C for_image_generation true require_pro w = (r, w', evs) ->
  exists r1 w1 evs1,
    renewal_pass C w = (r1, w1, evs1) /\
    ((exists e, r1 = Raise e /\ r = Raise e /\ evs = evs1) \/
     (exists e s2,
         r1 = Ok tt /\
         get_active_tokens C (ext w1) = (Raise e, s2) /\
         r = Raise e /\
         evs = evs1 ++ [EvAwait GetActiveTokens (Some e)]) \/
     (exists active s2 evs3,
         r1 = Ok tt /\
         get_active_tokens C (ext w1) = (Ok active, s2) /\
         let pool := base_pool require_pro active in
         let turns := filter_turns (video_turn_run C) pool s2 in
         evs = evs1 ++ [EvAwait GetActiveTokens None]
               ++ concat turns.*1.*1 ++ evs3 /\
         Forall (fun ev => is_workload_event ev = true) evs3 /\
         match loop_result [] turns with
         | Raise e => r = Raise e /\ evs3 = []
         | Ok [] => r = Ok None /\ evs3 = []
         | Ok kept =>
             workload_stage C for_image_generation true kept
               (mkWorld (final_state s2 turns) (usage_cache w1))
             = (r, w', evs3)
         end /\
         forall t', r = Ok (Some t') ->
           exists t s0,
             t ∈ pool /\ video_turn_run C t s0 ∈ turns /\
             (video_turn_run C t s0).1.2 = Kept t')).
Proof.
  intros H. rewrite select_token_video_run in H.
  destruct (renewal_pass C w) as [[r1 w1] evs1] eqn:Hren.
  exists r1, w1, evs1. split; [done|].
  destruct r1 as [[]|e]; [|left; exists e; by simplify_eq].
  right.
  destruct (get_active_tokens C (ext w1)) as [[active|e] s2] eqn:Hact.
  2:{ left. exists e, s2. by simplify_eq. }
  right. simpl in H.
  destruct (loop_result [] (filter_turns (video_turn_run C)
                              (base_pool require_pro active) s2))
    as [[|k0 kept]|e] eqn:Hloop.
  - injection H as <- <- <-. exists active, s2, []. simpl.
    rewrite Hloop, app_nil_r. by repeat split.
  - destruct (workload_stage C for_image_generation true (k0 :: kept) _)
      as [[r0 w0] evs3] eqn:Hwork.
    injection H as <- <- <-. exists active, s2, evs3. simpl.
    rewrite Hloop. split; [done|]. split; [done|]. split; [done|].
    pose proof Hwork as Hwork'.
    apply workload_stage_spec in Hwork' as (Hev3 & _ & Hin); [|done].
    split; [done|]. split; [done|].
    intros t' ->. destruct (Hin t' eq_refl) as [Hin' _].
    apply loop_result_ok in Hloop as [Hkept _]. simpl in Hkept.
    rewrite Hkept in Hin'. by apply kept_by_a_turn_run.
  - injection H as <- <- <-. exists active, s2, []. simpl.
    rewrite Hloop, app_nil_r. by repeat split.
Qed.

(** *** What a selection guarantees *)

Lemma elem_of_concat_seg (ev : Event) (seg : list Event) segs :
  seg ∈ segs -> ev ∈ seg -> ev ∈ concat segs.
Proof.
  induction segs as [|s segs IH]; intros Hs Hev; [by apply elem_of_nil in Hs|].
  simpl. apply elem_of_app. apply elem_of_cons in Hs as [->|Hs]; [by left|].
  right. by apply IH.
Qed.

Lemma Forall2_elem_of_r {A B} (R : A -> B -> Prop) l k y :
  Forall2 R l k -> y ∈ k -> exists x, x ∈ l /\ R x y.
Proof.
  induction 1 as [|x y' l k HR _ IH]; intros Hy; [by apply elem_of_nil in Hy|].
  apply elem_of_cons in Hy as [->|Hy].
  - exists x. split; [by left|done].
  - destruct (IH Hy) as (x' & ? & ?). exists x'. split; [by right|done].
Qed.

(** A token kept by the video filter was kept by one of its turns. *)
Lemma kept_by_a_turn (pool : list Token)
    (outs : list (list Event * option Token)) (t' : Token) :
  Forall2 (fun t o => video_turn t o.1 /\
                      from_option (kept_from t o.1) True o.2) pool outs ->
  t' ∈ omap snd outs ->
  exists t seg, t ∈ pool /\ seg ∈ outs.*1 /\ kept_from t seg t'.
Proof.
  intros Houts Hin. apply list_elem_of_omap in Hin as ([seg o] & Hin & Ho).
  simpl in Ho. subst o.
  destruct (Forall2_elem_of_r _ _ _ _ Houts Hin) as (t & Ht & _ & Hk).
  exists t, seg. split; [done|]. split; [|done].
  apply list_elem_of_fmap. by exists (seg, Some t').
Qed.


(** C4 (as amended): nothing in [select_token] catches an exception.  It
    returns, a token or [None], exactly when every collaborator call it
    awaited returned; and when it raises, it raises what the last call it
    awaited raised, every earlier call having returned, and nothing runs
    after that call. *)
Theorem select_token_outcomes
    (for_image_generation for_video_generation require_pro : bool)
    w r w' evs :
  select_token C for_image_generation for_video_generation require_pro w
  = (r, w', evs) ->
  (all_returned evs <-> exists o, r = Ok o) /\
  (forall e, r = Raise e ->
     exists c pre, evs = pre ++ [EvAwait c (Some e)] /\ all_returned pre).
Proof.
  intros H. apply select_token_stages in H as [Hp _].
  split; [by apply propagates_ok_iff|].
  intros e ->. exact Hp.
Qed.

Lemma later_event_not_auto_refresh ev :
  is_video_filter_event ev = true \/ is_workload_event ev = true \/
  (exists ans, ev = EvAwait GetActiveTokens ans) ->
  is_auto_refresh ev = false.
Proof.
  intros [H|[H|(ans & ->)]]; [| |done].
  - by destruct ev as [[]| | | | | | |].
  - by destruct ev as [[]| | | | | | |].
Qed.

(** C5 (as amended): with the flag off the pass does nothing.  With the
    flag on, a renewal is awaited only for a listed token that is active
    and whose expiry is at most 24 hours after the clock reading taken for
    it just before; when the pass returns it has taken one turn per listed
    token, in order, awaiting the renewal of every such token.  Every
    renewal is awaited inside the pass, before the pool is fetched and
    before anything else of the selection happens; and when the listing or
    a renewal raises, the selection raises the same exception and does
    nothing more. *)
Theorem renewal_is_awaited_before_selection
    (for_image_generation for_video_generation require_pro : bool)
    w r w' evs :
  select_token C for_image_generation for_video_generation require_pro w
  = (r, w', evs) ->
  exists evs1 rest r1 w1,
    renewal_pass C w = (r1, w1, evs1) /\
    evs = evs1 ++ rest /\
    Forall (fun ev => is_auto_refresh ev = false) rest /\
    (at_auto_refresh_enabled C = false -> evs1 = []) /\
    (forall i ans, EvAwait (AutoRefreshExpiringToken i) ans ∈ evs1 ->
       at_auto_refresh_enabled C = true /\
       exists all_tokens s1,
         get_all_tokens C (ext w) = (Ok all_tokens, s1) /\
         renewed_in all_tokens evs1) /\
    (at_auto_refresh_enabled C = true -> r1 = Ok tt ->
       exists all_tokens s1 segs,
         get_all_tokens C (ext w) = (Ok all_tokens, s1) /\
         Forall2 renewal_turn all_tokens segs /\
         evs1 = [EvLogInfo; EvAwait GetAllTokens None; EvLogInfo]
                ++ concat segs ++ [EvLogInfo]) /\
    (forall e, r1 = Raise e -> r = Raise e /\ w' = w1 /\ rest = []).
Proof.
  intros H. pose proof H as H'.
  apply select_token_stages in H'
    as (_ & evs1 & evsf & evs2 & evs3 & r1 & w1 & Hren & -> & _ & Hf
        & Hev2 & Hev3 & _ & _).
  pose proof Hren as Hren'.
  apply renewal_pass_spec in Hren' as (_ & _ & _ & Hoff & Honly & Hall).
  exists evs1, (evsf ++ evs2 ++ evs3), r1, w1.
  split; [done|]. split; [done|]. split.
  { apply Forall_app. split; [|apply Forall_app; split].
    - destruct Hf as [->|(ans & ->)]; [constructor|by repeat constructor].
    - eapply Forall_impl; [exact Hev2|]. intros ev Hev.
      apply later_event_not_auto_refresh. by left.
    - eapply Forall_impl; [exact Hev3|]. intros ev Hev.
      apply later_event_not_auto_refresh. right. by left. }
  split; [intros Hflag; by destruct (Hoff Hflag) as (_ & _ & ->)|].
  split; [done|]. split; [done|].
  intros e ->. unfold select_token, bind in H. rewrite Hren in H.
  injection H as <- <- Hevs. split; [done|]. split; [done|].
  apply (f_equal length) in Hevs. rewrite !length_app in Hevs.
  destruct evsf; [|simpl in Hevs; lia].
  destruct evs2; [|simpl in Hevs; lia].
  destruct evs3; [done|simpl in Hevs; lia].
Qed.

(** A pool without video capability leaves the video filter empty, with
    no collaborator asked. *)
Lemma video_filter_no_capability (pool : list Token) w :
  Forall no_video_capability pool ->
  for_each (video_body C) pool [] w = (Ok [], w, []).
Proof.
  induction 1 as [|t pool Ht _ IH]; [done|].
  assert (video_body C t [] w = (Ok [], w, [])) as Hb.
  { unfold video_body. destruct Ht as [-> | Hs]; [done|].
    destruct (video_enabled t); by rewrite ?Hs. }
  simpl. unfold bind. by rewrite Hb, IH.
Qed.

(** A pool without the image flag leaves the image filter empty. *)
Lemma image_filter_no_capability (pool : list Token) w :
  Forall (fun t => image_enabled t = false) pool ->
  for_each (image_body C) pool [] w = (Ok [], w, []).
Proof.
  induction 1 as [|t pool Ht _ IH]; [done|].
  assert (image_body C t [] w = (Ok [], w, [])) as Hb.
  { unfold image_body. by rewrite Ht. }
  simpl. unfold bind. by rewrite Hb, IH.
Qed.

(** C8: once the renewal pass and the pool fetch have returned, every
    stage that ends with no candidate makes the selection return [None],
    not raise: an empty pool of active tokens; no Pro token when Pro is
    required; a video filter that keeps nothing (in particular a pool
    without video capability); an image filter that keeps nothing (in
    particular a pool without the image flag); a video admission filter
    that keeps nothing. *)
Theorem exhaustion_is_not_an_error
    (for_image_generation for_video_generation require_pro : bool)
    w w1 evs1 (active : list Token) s2 :
  renewal_pass C w = (Ok tt, w1, evs1) ->
  get_active_tokens C (ext w1) = (Ok active, s2) ->
  let w2 := mkWorld s2 (usage_cache w1) in
  let pool := if require_pro then List.filter is_pro active else active in
  let result :=
    (select_token C for_image_generation for_video_generation require_pro
                  w).1.1 in
  (active = [] -> result = Ok None) /\
  (pool = [] -> result = Ok None) /\
  (for_video_generation = true ->
   forall w3 evs2,
     for_each (video_body C) pool [] w2 = (Ok [], w3, evs2) ->
     result = Ok None) /\
  (for_video_generation = true ->
   Forall no_video_capability pool -> result = Ok None) /\
  (for_image_generation = true ->
   forall pool' w3 evs2 w4 evs3,
     (if for_video_generation
      then for_each (video_body C) pool [] w2 = (Ok pool', w3, evs2)
      else pool' = pool /\ w3 = w2) ->
     for_each (image_body C) pool' [] w3 = (Ok [], w4, evs3) ->
     result = Ok None) /\
  (for_image_generation = true -> for_video_generation = false ->
   Forall (fun t => image_enabled t = false) pool -> result = Ok None) /\
  (for_image_generation = false -> for_video_generation = true ->
   forall cm pool' w3 evs2 w4 evs3,
     concurrency_manager C = Some cm ->
     for_each (video_body C) pool [] w2 = (Ok pool', w3, evs2) ->
     for_each (admission_body cm) pool' [] w3 = (Ok [], w4, evs3) ->
     result = Ok None).
Proof.
  intros Hren Hact w2 pool result.
  assert (result =
          (match active with
           | [] => ret None
           | _ => plan_stage C for_image_generation for_video_generation
                             require_pro active
           end w2).1.1) as Hres.
  { subst result. unfold select_token, bind at 1. rewrite Hren.
    unfold bind, await. rewrite Hact. fold w2.
    destruct active; [done|].
    by destruct (plan_stage _ _ _ _ _ _) as [[? ?] ?]. }
  assert (pool = [] -> result = Ok None) as Hpool.
  { intros Hnil. rewrite Hres. subst pool. unfold plan_stage.
    destruct active as [|t0 rest]; [done|].
    destruct require_pro; [by rewrite Hnil|done]. }
  assert (pool <> [] ->
          result = (video_stage C for_image_generation for_video_generation
                                pool w2).1.1) as Hvs.
  { intros Hne. rewrite Hres. subst pool. unfold plan_stage.
    destruct active as [|t0 rest].
    - by destruct require_pro.
    - destruct require_pro; [|done].
      by destruct (List.filter is_pro (t0 :: rest)). }
  assert (for_video_generation = true ->
          forall w3 evs2,
            for_each (video_body C) pool [] w2 = (Ok [], w3, evs2) ->
            result = Ok None) as Hvideo.
  { intros -> w3 evs2 Hv.
    destruct (decide (pool = [])) as [Hnil|Hne]; [by apply Hpool|].
    rewrite (Hvs Hne). unfold video_stage, bind. by rewrite Hv. }
  assert (forall pool' w3,
            pool' <> [] -> pool <> [] ->
            (if for_video_generation
             then exists evs2,
                 for_each (video_body C) pool [] w2 = (Ok pool', w3, evs2)
             else pool' = pool /\ w3 = w2) ->
            result = (workload_stage C for_image_generation
                                     for_video_generation pool' w3).1.1)
    as Hws.
  { intros pool' w3 Hne' Hne Hv. rewrite (Hvs Hne). unfold video_stage.
    destruct for_video_generation.
    - destruct Hv as [evs2 Hv]. unfold bind. rewrite Hv.
      destruct pool' as [|t0 rest]; [done|].
      by destruct (workload_stage _ _ _ _ _) as [[? ?] ?].
    - by destruct Hv as [-> ->]. }
  split; [intros ->; by rewrite Hres|]. split; [done|]. split; [done|].
  split; [intros Hfv Hall; eapply (Hvideo Hfv);
          by apply video_filter_no_capability|].
  assert (for_image_generation = true ->
          forall pool' w3 evs2 w4 evs3,
            (if for_video_generation
             then for_each (video_body C) pool [] w2 = (Ok pool', w3, evs2)
             else pool' = pool /\ w3 = w2) ->
            for_each (image_body C) pool' [] w3 = (Ok [], w4, evs3) ->
            result = Ok None) as Himage.
  { intros -> pool' w3 evs2 w4 evs3 Hv Hi.
    destruct (decide (pool = [])) as [Hnil|Hne]; [by apply Hpool|].
    destruct (decide (pool' = [])) as [Hnil'|Hne'].
    - subst pool'. destruct for_video_generation.
      + by eapply (Hvideo eq_refl).
      + by destruct Hv as [<- _].
    - rewrite (Hws pool' w3 Hne' Hne).
      + unfold workload_stage, bind. by rewrite Hi.
      + destruct for_video_generation; [by exists evs2|done]. }
  split; [done|]. split.
  { intros Hfi -> Hall. eapply (Himage Hfi pool w2 [] w2 []); [done|].
    by apply image_filter_no_capability. }
  intros -> -> cm pool' w3 evs2 w4 evs3 Hcm Hv Ha.
  destruct (decide (pool = [])) as [Hnil|Hne]; [by apply Hpool|].
  destruct (decide (pool' = [])) as [Hnil'|Hne'].
  - subst pool'. by eapply (Hvideo eq_refl).
  - rewrite (Hws pool' w3 Hne' Hne); [|by exists evs2].
    unfold workload_stage. rewrite Hcm. unfold bind. by rewrite Ha.
Qed.

Lemma stage_event_not_admission ev :
  is_renewal_event ev = true \/ is_video_filter_event ev = true \/
  is_image_filter_event ev = true \/ is_selection_event ev = true \/
  (exists ans, ev = EvAwait GetActiveTokens ans) ->
  is_can_use_video ev = false.
Proof.
  intros [H|[H|[H|[H|(ans & ->)]]]]; [| | | |done].
  all: by destruct ev as [[]| | | | | | |].
Qed.

(** C10: a request for image and video together.  The events of the
    selection are those of the renewal pass, the pool fetch, the video
    filter, the image filter and the selection, in that order; the video
    admission check is never awaited; and a token that is returned was
    kept by the video filter (one turn per candidate of the pool), then
    kept by the image filter run on what the video filter kept, then
    selected, as for an image request, among what the image filter kept.
    The image filter takes one turn per token the video filter kept, and
    the turn that kept the token returned is a turn on that very token:
    the token has the image flag, its lock was asked and answered "free",
    and, when there is a concurrency manager, its image admission was
    asked next and answered "yes". *)
Theorem image_and_video_request (require_pro : bool) w r w' evs :
  select_token C true true require_pro w = (r, w', evs) ->
  Forall (fun ev => is_can_use_video ev = false) evs /\
  exists evs1 evs_fetch evs2 evs3 evs4,
    evs = evs1 ++ evs_fetch ++ evs2 ++ evs3 ++ evs4 /\
    Forall (fun ev => is_renewal_event ev = true) evs1 /\
    (evs_fetch = [] \/ exists ans, evs_fetch = [EvAwait GetActiveTokens ans]) /\
    Forall (fun ev => is_video_filter_event ev = true) evs2 /\
    Forall (fun ev => is_image_filter_event ev = true) evs3 /\
    Forall (fun ev => is_selection_event ev = true) evs4 /\
    forall t, r = Ok (Some t) ->
      exists w1 active s2 (outs : list (list Event * option Token))
             w3 kept w4,
        let pool := if require_pro then List.filter is_pro active else active in
        renewal_pass C w = (Ok tt, w1, evs1) /\
        get_active_tokens C (ext w1) = (Ok active, s2) /\
        for_each (video_body C) pool [] (mkWorld s2 (usage_cache w1))
        = (Ok (omap snd outs), w3, evs2) /\
        evs2 = concat outs.*1 /\
        Forall2 (fun t o => video_turn t o.1 /\
                            from_option (kept_from t o.1) True o.2) pool outs /\
        for_each (image_body C) (omap snd outs) [] w3 = (Ok kept, w4, evs3) /\
        select_by_mode C kept true false w4 = (Ok (Some t), w', evs4) /\
        t ∈ kept /\ t ∈ omap snd outs /\ image_enabled t = true /\
        EvAwait (IsLocked (token_id t)) None ∈ evs3 /\
        let video_turns := filter_turns (video_turn_run C) pool s2 in
        let image_turns :=
          filter_turns (image_turn_run C) (omap snd outs) (ext w3) in
        evs2 = concat video_turns.*1.*1 /\
        omap snd outs = omap kept_token video_turns /\
        ext w3 = final_state s2 video_turns /\
        evs3 = concat image_turns.*1.*1 /\
        kept = omap kept_token image_turns /\
        exists s0 s1,
          image_turn_run C t s0 ∈ image_turns /\
          is_locked C (token_id t) s0 = (Ok false, s1) /\
          match concurrency_manager C with
          | Some cm =>
              exists s2',
                can_use_image cm (token_id t) s1 = (Ok true, s2') /\
                image_turn_run C t s0
                = ([EvAwait (IsLocked (token_id t)) None;
                    EvAwait (CanUseImage (token_id t)) None], Kept t, s2')
          | None =>
              image_turn_run C t s0
              = ([EvAwait (IsLocked (token_id t)) None], Kept t, s1)
          end.
Proof.
  intros H. apply select_token_stages in H
    as (_ & evs1 & evsf & evs2 & evs3 & r1 & w1 & Hren & -> & Hev1 & Hf
        & Hev2 & Hev3 & _ & Ht).
  assert (forall evs3a evs3b,
             Forall (fun ev => is_image_filter_event ev = true) evs3a ->
             Forall (fun ev => is_selection_event ev = true) evs3b ->
             Forall (fun ev => is_can_use_video ev = false)
                    (evs1 ++ evsf ++ evs2 ++ evs3a ++ evs3b)) as Hnever.
  { intros evs3a evs3b Ha Hb. repeat (apply Forall_app; split).
    - eapply Forall_impl; [exact Hev1|]. intros ev Hev.
      apply stage_event_not_admission. by left.
    - destruct Hf as [->|(ans & ->)]; [constructor|by repeat constructor].
    - eapply Forall_impl; [exact Hev2|]. intros ev Hev.
      apply stage_event_not_admission. right. by left.
    - eapply Forall_impl; [exact Ha|]. intros ev Hev.
      apply stage_event_not_admission. right. right. by left.
    - eapply Forall_impl; [exact Hb|]. intros ev Hev.
      apply stage_event_not_admission. right. right. right. by left. }
  destruct Ht
    as [[Ht ->]|(active & s2 & pool' & -> & Hact & -> & _ & w3 & Hvid & Hne
                 & Hwork)].
  { split; [by apply (Hnever [] [])|].
    exists evs1, evsf, evs2, [], []. split; [done|]. split; [done|].
    split; [done|]. split; [done|]. split; [constructor|].
    split; [constructor|]. intros t Hr. by destruct (Ht t). }
  simpl in Hvid.
  apply image_branch_spec in Hwork
    as (_ & evs3a & evs3b & -> & Ha & Hb & Hk).
  split; [by apply Hnever|].
  exists evs1, [EvAwait GetActiveTokens None], evs2, evs3a, evs3b.
  split; [done|]. split; [done|]. split; [right; by eexists|].
  split; [done|]. split; [done|]. split; [done|].
  intros t ->.
  destruct (Hk _ eq_refl)
    as (kept & w4 & Himg & Hin & Hin' & Hi & Hlock & Hsel).
  pose proof Hvid as Hvid'.
  apply video_filter_spec in Hvid' as (_ & _ & _ & Houts).
  destruct (Houts pool' eq_refl) as (outs & Hturns & Hevs & Hkept).
  simpl in Hkept. subst pool'.
  pose proof Hvid as Hvrun.
  rewrite (filter_loop_run _ _ video_body_run) in Hvrun. simpl in Hvrun.
  injection Hvrun as Hvloop Hw3 Hevs2.
  apply loop_result_ok in Hvloop as [Hvkept _]. simpl in Hvkept.
  pose proof Himg as Hirun.
  rewrite (filter_loop_run _ _ image_body_run) in Hirun.
  injection Hirun as Hiloop Hw4 Hevs3.
  apply loop_result_ok in Hiloop as [Hikept _]. simpl in Hikept.
  assert (exists s0 s1,
             image_turn_run C t s0
             ∈ filter_turns (image_turn_run C) (omap snd outs) (ext w3) /\
             is_locked C (token_id t) s0 = (Ok false, s1) /\
             match concurrency_manager C with
             | Some cm =>
                 exists s2',
                   can_use_image cm (token_id t) s1 = (Ok true, s2') /\
                   image_turn_run C t s0
                   = ([EvAwait (IsLocked (token_id t)) None;
                       EvAwait (CanUseImage (token_id t)) None], Kept t, s2')
             | None =>
                 image_turn_run C t s0
                 = ([EvAwait (IsLocked (token_id t)) None], Kept t, s1)
             end) as Hturn.
  { pose proof Hin as Hin0. rewrite Hikept in Hin0.
    apply kept_by_a_turn_run in Hin0 as (t0 & s0 & _ & Hel & Hk0).
    destruct (image_turn_kept _ _ _ Hk0) as (-> & _ & s1 & Hl & Hcm).
    by exists s0, s1. }
  exists w1, active, s2, outs, w3, kept, w4. simpl.
  repeat (split; [done|]). split; [by rewrite <- Hw3|]. by split.
Qed.

End Stages.

(** ** Selections on the scenarios *)

(** C1: the token re-read from the registry after a quota refresh is
    selected without its capabilities being looked at again.  A video
    request on a listing whose cooling token has meanwhile lost the video
    flag returns that token, with the flag off; a video request that
    requires Pro returns the re-read token although its plan is no longer
    Pro. *)
Theorem reread_token_is_not_rechecked :
  (exists t,
      (run_select (sim false false) false true false stale_video_sim).1.1
      = Ok (Some t) /\
      video_enabled t = false /\
      ~ meets_requirements false true false t) /\
  (exists t,
      (run_select (sim false false) false true true stale_plan_sim).1.1
      = Ok (Some t) /\
      plan_type t = Some "free"%string /\
      ~ meets_requirements false true true t).
Proof.
  split.
  - exists (set_video_enabled false refreshed_row).
    split; [by vm_compute|]. split; [done|].
    intros (_ & Hv & _). by destruct (Hv eq_refl).
  - exists (set_plan (Some "free"%string) refreshed_row).
    split; [by vm_compute|]. split; [done|].
    intros (_ & _ & Hp). by specialize (Hp eq_refl).
Qed.



(** A failing quota refresh, a failing re-read and a failing pool fetch
    each end the selection with the exception, not with a token of the
    remaining pool and not with [None]. *)
Lemma failure_reaches_the_caller :
  let refresh := run_select (sim false false) false true false failing_refresh_sim in
  let reread := run_select (sim false false) false true false failing_reread_sim in
  let fetch := run_select (sim false false) false false false failing_fetch_sim in
  refresh.1.1 = Raise "collaborator failure" /\
  reread.1.1 = Raise "collaborator failure" /\
  fetch.1.1 = Raise "collaborator failure" /\
  ~ (exists o, refresh.1.1 = Ok o) /\
  ~ (exists o, reread.1.1 = Ok o) /\
  fetch.1.1 <> Ok None.
Proof.
  intros refresh reread fetch.
  split; [by vm_compute|]. split; [by vm_compute|]. split; [by vm_compute|].
  split; [intros [o Ho]; by vm_compute in Ho|].
  split; [intros [o Ho]; by vm_compute in Ho|].
  intros Ho. by vm_compute in Ho.
Qed.

Lemma select_token_outcomes_witness :
  let x := run_select (sim false false) false true false failing_refresh_sim in
  exists c pre,
    x.2 = pre ++ [EvAwait c (Some "collaborator failure"%string)] /\
    all_returned pre.
Proof.
  intros x.
  refine (proj2 (select_token_outcomes (sim false false) false true false
                   (sim_world failing_refresh_sim) x.1.1 x.1.2 x.2 _) _ _);
    by vm_compute.
Defined.

(** A renewal that fails ends the selection before the pool is fetched;
    a renewal that returns has returned before the pool is fetched. *)
Lemma renewal_blocks_the_selection :
  let failing := run_select (sim true false) false false false failing_renewal_sim in
  let renewing := run_select (sim true false) false false false renewing_sim in
  failing.1.1 = Raise "collaborator failure" /\
  failing.2 = [EvLogInfo; EvAwait GetAllTokens None; EvLogInfo; EvNow 1000;
               EvLogInfo;
               EvAwait (AutoRefreshExpiringToken 1)
                       (Some "collaborator failure"%string)] /\
  renewing.1.1 = Ok (Some expiring_token) /\
  renewing.2 = [EvLogInfo; EvAwait GetAllTokens None; EvLogInfo; EvNow 1000;
                EvLogInfo; EvAwait (AutoRefreshExpiringToken 1) None;
                EvNow 1000; EvLogInfo; EvAwait GetActiveTokens None;
                EvAwait GetSchedulingMode None; EvRandBelow 2 0].
Proof. by vm_compute. Qed.

Lemma renewal_is_awaited_before_selection_witness :
  let x := run_select (sim true false) false false false renewing_sim in
  exists evs1 rest r1 w1,
    renewal_pass (sim true false) (sim_world renewing_sim) = (r1, w1, evs1) /\
    x.2 = evs1 ++ rest /\
    Forall (fun ev => is_auto_refresh ev = false) rest.
Proof.
  intros x.
  destruct (renewal_is_awaited_before_selection (sim true false)
              false false false (sim_world renewing_sim) x.1.1 x.1.2 x.2)
    as (evs1 & rest & r1 & w1 & Hren & Hevs & Hrest & _); [by vm_compute|].
  by exists evs1, rest, r1, w1.
Defined.

Lemma exhaustion_is_not_an_error_witness :
  (run_select (sim false false) false true false no_video_sim).1.1 = Ok None.
Proof.
  refine (proj1 (proj2 (proj2 (proj2
            (exhaustion_is_not_an_error (sim false false) false true false
               (sim_world no_video_sim) (sim_world no_video_sim) []
               (sim_active no_video_sim) no_video_sim _ _)))) eq_refl _).
  - reflexivity.
  - reflexivity.
  - repeat constructor; by left.
Defined.

Lemma image_and_video_request_witness :
  let x := run_select (sim false true) true true false busy_sim in
  x.1.1 = Ok (Some T2) /\
  Forall (fun ev => is_can_use_video ev = false) x.2 /\
  exists s0 s1 s2,
    is_locked (sim false true) (token_id T2) s0 = (Ok false, s1) /\
    can_use_image sim_concurrency_manager (token_id T2) s1 = (Ok true, s2).
Proof.
  intros x. split; [by vm_compute|].
  destruct (image_and_video_request (sim false true) false
              (sim_world busy_sim) x.1.1 x.1.2 x.2)
    as (Hnever & evs1 & evsf & evs2 & evs3 & evs4 & _ & _ & _ & _ & _ & _
        & Hk); [by vm_compute|].
  split; [exact Hnever|].
  destruct (Hk T2) as (w1 & active & s2 & outs & w3 & kept & w4 & Hrun);
    [by vm_compute|].
  simpl in Hrun.
  destruct Hrun as (_ & _ & _ & _ & _ & _ & _ & _ & _ & _ & _ & _ & _ & _
                    & _ & _ & s0 & s1 & _ & Hl & s2' & Hc & _).
  by exists s0, s1, s2'.
Defined.

(** ** The persistence of a round-robin selection *)

(** C9 (as amended): the round-robin selector creates the task that
    persists the new counter after it has left the critical section,
    awaits nothing, and returns the token it selected, whatever the
    registry write will do.  The task itself awaits the registry write
    once and never again: when the write returns, the task returns; when
    the write raises an exception of class [Exception], the task logs it
    and returns; any other exception (the cancellation of the task) is
    not caught: it ends the task with nothing logged.  And what the
    registry write does has no part in a selection: a selection is the
    same function of the world whatever write it is given. *)
Theorem persistence_is_fire_and_forget :
  (forall (S : Type) (t0 : Token) (rest : list Token)
          (for_image for_video : bool) (w : World S),
      exists sel w',
        _select_round_robin (t0 :: rest) for_image for_video w
        = (Ok (Some sel), w',
           [EvLockAcquire; EvLockRelease; EvCreateTask (token_id sel);
            EvLogInfo]) /\
        ext w' = ext w) /\
  (forall (S : Type) (C : Collaborators S) (tid : Z) (w : World S),
      exists r w' evs,
        _async_increment_db_usage C tid w = (r, w', evs) /\
        usage_cache w' = usage_cache w /\
        match increment_usage_count C tid (ext w) with
        | (Ok _, s) =>
            r = Ok tt /\ ext w' = s /\
            evs = [EvAwait (IncrementUsageCount tid) None]
        | (Raise e, s) =>
            ext w' = s /\
            if is_Exception e
            then r = Ok tt /\
                 evs = [EvAwait (IncrementUsageCount tid) (Some e);
                        EvLogError e]
            else r = Raise e /\
                 evs = [EvAwait (IncrementUsageCount tid) (Some e)]
        end) /\
  (forall (S : Type) (C : Collaborators S)
          (f : Z -> S -> result unit * S)
          (for_image_generation for_video_generation require_pro : bool),
      select_token (with_increment_usage_count C f)
                   for_image_generation for_video_generation require_pro
      = select_token C for_image_generation for_video_generation
                     require_pro).
Proof.
  split; [|split].
  - intros S t0 rest for_image for_video w.
    destruct (select_round_robin_spec (t0 :: rest) for_image for_video w
                (_select_round_robin (t0 :: rest) for_image for_video w).1.1
                (_select_round_robin (t0 :: rest) for_image for_video w).1.2
                (_select_round_robin (t0 :: rest) for_image for_video w).2)
      as (Hext & sel & Hr & _ & Hevs); [done| |].
    + by destruct (_select_round_robin _ _ _ _) as [[? ?] ?].
    + exists sel. eexists. split; [|exact Hext].
      destruct (_select_round_robin _ _ _ _) as [[? ?] ?]. simpl in *.
      by subst.
  - intros S C tid w.
    unfold _async_increment_db_usage, try_except, await, log_error, emit.
    destruct (increment_usage_count C tid (ext w)) as [[[]|e] s].
    + by eexists _, _, _.
    + destruct (is_Exception e); by eexists _, _, _.
  - reflexivity.
Qed.

(** A registry write that raises [asyncio.CancelledError] is not logged:
    the exception leaves [_async_increment_db_usage], which emits no log
    line; a write that raises an ordinary exception is logged, and the
    task returns. *)
Lemma cancelled_write_is_not_logged :
  let w := sim_world (quiet_sim scenario_pool "round_robin") in
  let cancelled := _async_increment_db_usage cancelled_write_sim 2 w in
  let failing :=
    _async_increment_db_usage (sim false false) 2
      (sim_world (mkSim [] scenario_pool [] [] [] [] 1000 "round_robin"
                        [IncrementUsageCount 2] 0)) in
  cancelled.1.1 = Raise "CancelledError"%string /\
  cancelled.2
  = [EvAwait (IncrementUsageCount 2) (Some "CancelledError"%string)] /\
  (EvLogError "CancelledError"%string ∉ cancelled.2) /\
  failing.1.1 = Ok tt /\
  failing.2
  = [EvAwait (IncrementUsageCount 2) (Some "collaborator failure"%string);
     EvLogError "collaborator failure"%string].
Proof.
  intros w cancelled failing.
  split; [by vm_compute|]. split; [by vm_compute|].
  split; [|split; by vm_compute].
  intros Hin. vm_compute in Hin.
  apply elem_of_cons in Hin as [Hin|Hin]; [done|by apply elem_of_nil in Hin].
Qed.

(** ** The exclusivity lock *)

(** Steps that keep [tid] and happen no later than the expiry of its lease
    leave the lease as it is. *)
Lemma token_lock_keeps_lease (tid : Z) (lease : TokenLock.Lease)
    (ops : list TokenLock.Op) : forall l : TokenLock.t,
  TokenLock.leases l !! tid = Some lease ->
  Forall (TokenLock.keeps tid (TokenLock.expiry lease)) ops ->
  TokenLock.leases (TokenLock.run l ops) !! tid = Some lease /\
  TokenLock.lock_timeout (TokenLock.run l ops) = TokenLock.lock_timeout l.
Proof.
  induction ops as [|op ops IH]; intros l Hl Hops; [done|].
  inversion Hops as [|? ? Hop Hrest]; subst.
  assert (TokenLock.leases (TokenLock.step l op) !! tid = Some lease /\
          TokenLock.lock_timeout (TokenLock.step l op)
          = TokenLock.lock_timeout l) as [Hl1 Ht1].
  { destruct op as [tid' now|c tid' now|tid']; simpl in *; [done| |].
    - unfold TokenLock.acquire, TokenLock.is_locked.
      destruct (decide (tid' = tid)) as [->|Hne].
      + rewrite Hl. assert ((now <=? TokenLock.expiry lease) = true) as ->
          by by apply Z.leb_le.
        done.
      + destruct (TokenLock.leases l !! tid') as [lease'|];
          [destruct (now <=? TokenLock.expiry lease')|]; simpl; try done;
          by rewrite lookup_insert_ne.
    - by rewrite lookup_delete_ne. }
  destruct (IH _ Hl1 Hrest) as [Hl2 Ht2]. simpl.
  split; [done|]. by rewrite Ht2.
Qed.

(** C6: once an acquire of [tid] has succeeded at instant [t1], whatever
    else is asked of the lock up to the expiry of the lease, short of a
    release of [tid], a second acquire of [tid] at any instant up to that
    expiry fails and leaves the lock as it is, so that two callers never
    both hold the lease; and at any instant past the expiry, without a
    release, [is_locked] answers that [tid] is free and an acquire of it
    succeeds. *)
Theorem token_lock_exclusive_until_expiry (l l1 : TokenLock.t)
    (caller1 caller2 : nat) (tid t1 t2 : Z) (ops : list TokenLock.Op) :
  TokenLock.acquire l caller1 tid t1 = (true, l1) ->
  Forall (TokenLock.keeps tid (t1 + TokenLock.lock_timeout l)) ops ->
  let l2 := TokenLock.run l1 ops in
  (t2 <= t1 + TokenLock.lock_timeout l ->
   TokenLock.is_locked l2 tid t2 = true /\
   TokenLock.acquire l2 caller2 tid t2 = (false, l2)) /\
  (t1 + TokenLock.lock_timeout l < t2 ->
   TokenLock.is_locked l2 tid t2 = false /\
   (TokenLock.acquire l2 caller2 tid t2).1 = true /\
   TokenLock.leases (TokenLock.acquire l2 caller2 tid t2).2 !! tid
   = Some (TokenLock.mkLease caller2 (t2 + TokenLock.lock_timeout l))).
Proof.
  intros Hacq Hops l2. unfold TokenLock.acquire in Hacq.
  destruct (TokenLock.is_locked l tid t1); [done|].
  injection Hacq as <-.
  destruct (token_lock_keeps_lease tid
              (TokenLock.mkLease caller1 (t1 + TokenLock.lock_timeout l)) ops
              (TokenLock.mkLock (TokenLock.lock_timeout l)
                 (<[tid := TokenLock.mkLease caller1
                             (t1 + TokenLock.lock_timeout l)]>
                    (TokenLock.leases l))))
    as [Hlease Htimeout]; [by apply lookup_insert_eq|done|].
  fold l2 in Hlease, Htimeout. simpl in Htimeout.
  unfold TokenLock.acquire, TokenLock.is_locked. rewrite Hlease. simpl.
  split; intros Ht.
  - assert ((t2 <=? t1 + TokenLock.lock_timeout l) = true) as ->
      by by apply Z.leb_le.
    done.
  - assert ((t2 <=? t1 + TokenLock.lock_timeout l) = false) as ->
      by by apply Z.leb_gt.
    split; [done|]. split; [done|]. simpl. rewrite Htimeout.
    apply lookup_insert_eq.
Qed.

Lemma token_lock_exclusive_until_expiry_witness :
  let l0 := TokenLock.mkLock 300 ∅ in
  let l1 := (TokenLock.acquire l0 1 7 1000).2 in
  let l2 := TokenLock.run l1 [TokenLock.OpAcquire 3 8 1100;
                              TokenLock.OpIsLocked 7 1200;
                              TokenLock.OpRelease 8] in
  TokenLock.acquire l2 2 7 1000 = (false, l2) /\
  TokenLock.acquire l2 2 7 1300 = (false, l2) /\
  TokenLock.is_locked l2 7 1301 = false /\
  (TokenLock.acquire l2 2 7 1301).1 = true.
Proof.
  intros l0 l1 l2.
  assert (TokenLock.acquire l0 1 7 1000 = (true, l1)) as Hacq by done.
  assert (Forall (TokenLock.keeps 7 (1000 + TokenLock.lock_timeout l0))
                 [TokenLock.OpAcquire 3 8 1100; TokenLock.OpIsLocked 7 1200;
                  TokenLock.OpRelease 8]) as Hops.
  { repeat constructor; simpl; lia. }
  split; [|split].
  - refine (proj2 (proj1 (token_lock_exclusive_until_expiry
                            l0 l1 1 2 7 1000 1000 _ Hacq Hops) _)).
    simpl. lia.
  - refine (proj2 (proj1 (token_lock_exclusive_until_expiry
                            l0 l1 1 2 7 1000 1300 _ Hacq Hops) _)).
    simpl. lia.
  - destruct (proj2 (token_lock_exclusive_until_expiry
                       l0 l1 1 2 7 1000 1301 _ Hacq Hops)) as (? & ? & _);
      [simpl; lia|].
    by split.
Defined.

(** ** Maintenance of the usage cache *)

Lemma sync_entries_lookup (all_tokens : list Token) : forall cache k,
  sync_entries all_tokens cache !! k
  = match last_listed k all_tokens with
    | Some u => Some u
    | None => cache !! k
    end.
Proof.
  unfold last_listed.
  induction all_tokens as [|t ts IH]; intros cache k; [done|].
  simpl. rewrite IH. rewrite filter_cons.
  destruct (decide (token_id t = k)) as [<-|Hne].
  - destruct (filter _ ts) as [|t' l'] eqn:E; simpl.
    + by rewrite lookup_insert_eq.
    + destruct (last (t' :: l')) eqn:El; [done|]. by apply last_None in El.
  - destruct (last (filter _ ts)); simpl; [done|].
    by rewrite lookup_insert_ne.
Qed.

(** What a synchronisation does, by the answer of the listing. *)
Lemma sync_usage_cache_run (S : Type) (C : Collaborators S) (w : World S) :
  sync_usage_cache_from_db C w
  = match get_all_tokens C (ext w) with
    | (Ok all_tokens, s) =>
        (Ok tt, mkWorld s (sync_entries all_tokens (usage_cache w)),
         [EvAwait GetAllTokens None; EvLogInfo])
    | (Raise e, s) =>
        if is_Exception e
        then (Ok tt, mkWorld s (usage_cache w),
              [EvAwait GetAllTokens (Some e); EvLogError e])
        else (Raise e, mkWorld s (usage_cache w),
              [EvAwait GetAllTokens (Some e)])
    end.
Proof.
  unfold sync_usage_cache_from_db, try_except, bind, await, get_cache,
    set_cache, log_info, log_error, emit.
  destruct (get_all_tokens C (ext w)) as [[all_tokens|e] s]; simpl; [done|].
  by destruct (is_Exception e).
Qed.

(** When the listing returns, the synchronisation returns, and every
    identifier of the listing gets the registry value of the last listed
    token that carries it, whatever the cache held, while every other
    entry is left as it is.  When the listing raises, the cache is left as
    it is; an exception of class [Exception] is logged and the
    synchronisation returns, and any other exception (a cancellation)
    is raised to the caller with nothing logged. *)
Theorem sync_usage_cache_overwrites_or_logs (S : Type) (C : Collaborators S)
    (w : World S) r w' evs :
  sync_usage_cache_from_db C w = (r, w', evs) ->
  (exists all_tokens,
      get_all_tokens C (ext w) = (Ok all_tokens, ext w') /\
      r = Ok tt /\
      evs = [EvAwait GetAllTokens None; EvLogInfo] /\
      usage_cache w' = sync_entries all_tokens (usage_cache w) /\
      forall k, usage_cache w' !! k
                = match last_listed k all_tokens with
                  | Some u => Some u
                  | None => usage_cache w !! k
                  end) \/
  (exists e,
      get_all_tokens C (ext w) = (Raise e, ext w') /\
      usage_cache w' = usage_cache w /\
      if is_Exception e
      then r = Ok tt /\ evs = [EvAwait GetAllTokens (Some e); EvLogError e]
      else r = Raise e /\ evs = [EvAwait GetAllTokens (Some e)]).
Proof.
  rewrite sync_usage_cache_run.
  destruct (get_all_tokens C (ext w)) as [[all_tokens|e] s] eqn:E.
  - intros [= <- <- <-]. left. exists all_tokens.
    split; [done|]. split; [done|]. split; [done|]. split; [done|].
    intros k. apply sync_entries_lookup.
  - right. exists e. destruct (is_Exception e); by simplify_eq/=.
Qed.

Lemma sync_usage_cache_overwrites_or_logs_witness :
  let s := mkSim [plain_token 1 3; plain_token 2 5; plain_token 1 7] []
                 [] [] [] [] 1000 "random" [] 0 in
  let x := sync_usage_cache_from_db (sim false false)
             (mkWorld s (<[1 := 40]> (<[9 := 90]> ∅))) in
  x.1.1 = Ok tt /\
  usage_cache x.1.2 !! 1 = Some 7 /\
  usage_cache x.1.2 !! 2 = Some 5 /\
  usage_cache x.1.2 !! 9 = Some 90.
Proof.
  intros s x.
  destruct (sync_usage_cache_overwrites_or_logs Sim (sim false false)
              (mkWorld s (<[1 := 40]> (<[9 := 90]> ∅))) x.1.1 x.1.2 x.2)
    as [(all_tokens & _ & Hr & _)|(e & He & _)]; [by vm_compute| |].
  - split; [exact Hr|]. by vm_compute.
  - by vm_compute in He.
Defined.

(** After a synchronisation that succeeded, the lookup of a listed token
    returns the registry value of the listing, whatever value is passed
    along, and changes nothing. *)
Theorem sync_then_lookup (S : Type) (C : Collaborators S) (w w' : World S)
    evs (all_tokens : list Token) (t : Token) (db_usage : Z) :
  sync_usage_cache_from_db C w = (Ok tt, w', evs) ->
  get_all_tokens C (ext w) = (Ok all_tokens, ext w') ->
  NoDup (token_id <$> all_tokens) ->
  t ∈ all_tokens ->
  _get_cached_usage (token_id t) db_usage (usage_cache w')
  = (usage_or_0 t, usage_cache w').
Proof.
  intros Hsync Hall Hnd Ht.
  rewrite sync_usage_cache_run, Hall in Hsync. simpl in Hsync.
  assert (forall k, usage_cache w' !! k
                    = match last_listed k all_tokens with
                      | Some u => Some u
                      | None => usage_cache w !! k
                      end) as Hk.
  { intros k. injection Hsync as Hw _. rewrite <- Hw. simpl.
    apply sync_entries_lookup. }
  assert (last_listed (token_id t) all_tokens = Some (usage_or_0 t)) as Hlast.
  { unfold last_listed. clear -Hnd Ht.
    induction all_tokens as [|t0 ts IH]; [by apply elem_of_nil in Ht|].
    rewrite fmap_cons in Hnd. apply NoDup_cons in Hnd as [Hnotin Hnd].
    rewrite filter_cons. apply elem_of_cons in Ht as [->|Ht].
    - rewrite decide_True by done.
      assert (filter (fun t' => token_id t' = token_id t0) ts = []) as ->; [|done].
      destruct (filter (fun t' => token_id t' = token_id t0) ts)
        as [|t' l'] eqn:E; [done|].
      assert (t' ∈ filter (fun t' => token_id t' = token_id t0) ts) as Hin
        by (rewrite E; by left).
      apply list_elem_of_filter in Hin as [Heq Hin]. exfalso.
      apply Hnotin. rewrite <- Heq. by apply list_elem_of_fmap_2.
    - rewrite decide_False.
      + by apply IH.
      + intros Heq. apply Hnotin. rewrite Heq. by apply list_elem_of_fmap_2. }
  unfold _get_cached_usage. by rewrite Hk, Hlast.
Qed.

Lemma sync_then_lookup_witness :
  let s := mkSim [plain_token 1 3; plain_token 2 5] [] [] [] [] [] 1000
                 "random" [] 0 in
  let x := sync_usage_cache_from_db (sim false false)
             (mkWorld s (<[1 := 40]> ∅)) in
  _get_cached_usage 1 99 (usage_cache x.1.2) = (3, usage_cache x.1.2).
Proof.
  intros s x.
  refine (sync_then_lookup Sim (sim false false)
            (mkWorld s (<[1 := 40]> ∅)) x.1.2 x.2
            [plain_token 1 3; plain_token 2 5] (plain_token 1 3) 99 _ _ _ _).
  - by vm_compute.
  - by vm_compute.
  - apply (bool_decide_unpack _). by vm_compute.
  - by left.
Defined.

(** ** Round-robin selections in a row *)

Lemma distinct_ids_same_token (l : list Token) (i j : nat) (t1 t2 : Token) :
  NoDup (token_id <$> l) ->
  l !! i = Some t1 -> l !! j = Some t2 -> token_id t1 = token_id t2 -> i = j.
Proof.
  intros Hnd Hi Hj Heq.
  apply (NoDup_lookup (token_id <$> l) i j (token_id t1) Hnd).
  - by rewrite list_lookup_fmap, Hi.
  - by rewrite list_lookup_fmap, Hj, Heq.
Qed.

(** With distinct identifiers and an empty cache, seeding gives every
    candidate its registry value. *)
Lemma resolve_usage_fresh (available : list Token) (j : nat) (t : Token) :
  NoDup (token_id <$> available) ->
  available !! j = Some t ->
  (resolve_usage available ∅).2 !! token_id t = Some (usage_or_0 t).
Proof.
  intros Hnd Hj. apply (resolve_usage_seed available ∅ j t Hj); [done|].
  intros j' t' Hlt Hj' Heq.
  pose proof (distinct_ids_same_token _ _ _ _ _ Hnd Hj' Hj Heq). lia.
Qed.

(** After the cache has been reset, a round-robin selection among
    candidates of distinct identifiers ranks them by the registry's
    counters: it returns the first candidate whose registry counter is
    least, and leaves in the cache the registry counter of every
    candidate, the selected one's plus one. *)
Theorem reset_then_round_robin (S : Type) (t0 : Token) (rest : list Token)
    (for_image for_video : bool) (w : World S) :
  let available := t0 :: rest in
  NoDup (token_id <$> available) ->
  exists (i : nat) (sel : Token) (w' : World S),
    bind reset_usage_cache_coro
         (fun _ => _select_round_robin available for_image for_video) w
    = (Ok (Some sel), w',
       [EvLogInfo; EvLockAcquire; EvLockRelease;
        EvCreateTask (token_id sel); EvLogInfo]) /\
    available !! i = Some sel /\
    (forall (j : nat) (t : Token), available !! j = Some t ->
       usage_or_0 sel <= usage_or_0 t /\
       ((j < i)%nat -> usage_or_0 sel < usage_or_0 t)) /\
    usage_cache w' !! token_id sel = Some (usage_or_0 sel + 1) /\
    (forall t, t ∈ available -> t <> sel ->
       usage_cache w' !! token_id t = Some (usage_or_0 t)).
Proof.
  intros available Hnd.
  destruct (critical_section_least_used t0 rest ∅)
    as (i & sel & cur & Hcs & Hi & Hs & Hmin).
  assert (_select_round_robin available for_image for_video
            (mkWorld (ext w) ∅)
          = (Ok (Some sel),
             mkWorld (ext w)
               (<[token_id sel := cur + 1]> (resolve_usage available ∅).2),
             [EvLockAcquire; EvLockRelease; EvCreateTask (token_id sel);
              EvLogInfo])) as Hsel.
  { unfold _select_round_robin, available, bind, emit, get_cache.
    change (usage_cache (mkWorld (ext w) ∅)) with (∅ : gmap Z Z).
    rewrite Hcs. reflexivity. }
  fold available in Hi, Hs, Hmin.
  assert (cur = usage_or_0 sel) as ->.
  { rewrite (resolve_usage_fresh available i sel Hnd Hi) in Hs. congruence. }
  exists i, sel. eexists. split; [|split; [done|split; [|split]]].
  - change (bind reset_usage_cache_coro
              (fun _ => _select_round_robin available for_image for_video) w)
      with (let '(r, w2, evs2) :=
              _select_round_robin available for_image for_video
                                  (mkWorld (ext w) ∅) in
            (r, w2, [EvLogInfo] ++ evs2)).
    rewrite Hsel. reflexivity.
  - intros j t Hj. destruct (Hmin j t Hj) as (u & Hu & Hle & Hlt).
    rewrite (resolve_usage_fresh available j t Hnd Hj) in Hu.
    by injection Hu as <-.
  - simpl. apply lookup_insert_eq.
  - intros t Ht Hne. simpl.
    apply list_elem_of_lookup_1 in Ht as [j Hj].
    rewrite lookup_insert_ne.
    + by apply (resolve_usage_fresh available j t).
    + intros Heq. apply Hne.
      pose proof (distinct_ids_same_token _ _ _ _ _ Hnd Hi Hj Heq) as ->.
      congruence.
Qed.

Lemma reset_then_round_robin_witness :
  exists (i : nat) (sel : Token),
    scenario_pool !! i = Some sel /\
    forall (j : nat) (t : Token), scenario_pool !! j = Some t ->
      usage_or_0 sel <= usage_or_0 t /\
      ((j < i)%nat -> usage_or_0 sel < usage_or_0 t).
Proof.
  destruct (reset_then_round_robin Sim T1 [T2; T3] false false
              (sim_world (quiet_sim scenario_pool "round_robin")))
    as (i & sel & w' & _ & Hi & Hmin & _).
  - apply (bool_decide_unpack _). by vm_compute.
  - by exists i, sel.
Defined.

(** Fairness is kept: when the counters of the candidates, once missing
    entries are seeded, differ by at most [d] (at least 1), a round-robin
    selection leaves them differing by at most [d], and every candidate
    with an entry. *)
Theorem round_robin_keeps_spread (S : Type) (d : Z) (t0 : Token)
    (rest : list Token) (for_image for_video : bool) (w : World S)
    r w' evs :
  let available := t0 :: rest in
  1 <= d ->
  spread_at_most d available (resolve_usage available (usage_cache w)).2 ->
  _select_round_robin available for_image for_video w = (r, w', evs) ->
  spread_at_most d available (usage_cache w') /\
  forall t, t ∈ available -> is_Some (usage_cache w' !! token_id t).
Proof.
  intros available Hd Hspread Hrun.
  destruct (critical_section_least_used t0 rest (usage_cache w))
    as (i & sel & cur & Hcs & Hi & Hs & Hmin).
  assert (_select_round_robin available for_image for_video w
          = (Ok (Some sel),
             mkWorld (ext w)
               (<[token_id sel := cur + 1]>
                  (resolve_usage available (usage_cache w)).2),
             [EvLockAcquire; EvLockRelease; EvCreateTask (token_id sel);
              EvLogInfo])) as Hsel.
  { unfold _select_round_robin, available, bind, emit, get_cache.
    rewrite Hcs. reflexivity. }
  fold available in Hi, Hs, Hmin. clear Hcs.
  set (seeded := (resolve_usage available (usage_cache w)).2) in *.
  clearbody seeded.
  rewrite Hsel in Hrun. injection Hrun as <- <- <-. clear Hsel.
  cbn [usage_cache].
  assert (sel ∈ available) as Hin by by eapply list_elem_of_lookup_2.
  assert (forall t, t ∈ available ->
            exists u, seeded !! token_id t = Some u /\ cur <= u) as Hall.
  { intros t Ht. apply list_elem_of_lookup_1 in Ht as [j Hj].
    destruct (Hmin j t Hj) as (u & Hu & Hle & _). by exists u. }
  split.
  - intros t1 t2 u1 u2 Ht1 Ht2 Hu1 Hu2.
    destruct (decide (token_id t1 = token_id sel)) as [E1|E1];
      destruct (decide (token_id t2 = token_id sel)) as [E2|E2].
    + rewrite E1, lookup_insert_eq in Hu1. rewrite E2, lookup_insert_eq in Hu2.
      simplify_eq. lia.
    + rewrite E1, lookup_insert_eq in Hu1.
      rewrite lookup_insert_ne in Hu2 by done.
      destruct (Hall t2 Ht2) as (u & Hu & Hle). simplify_eq. lia.
    + rewrite lookup_insert_ne in Hu1 by done.
      rewrite E2, lookup_insert_eq in Hu2. simplify_eq.
      pose proof (Hspread t1 sel u1 cur Ht1 Hin Hu1 Hs). lia.
    + rewrite lookup_insert_ne in Hu1 by done.
      rewrite lookup_insert_ne in Hu2 by done.
      by apply (Hspread t1 t2).
  - intros t Ht. destruct (Hall t Ht) as (u & Hu & _).
    destruct (decide (token_id t = token_id sel)) as [E|E].
    + rewrite E, lookup_insert_eq. by eexists.
    + rewrite lookup_insert_ne by done. by eexists.
Qed.

Lemma round_robin_keeps_spread_witness :
  let w1 := (_select_round_robin [T2; T3] false false
               (sim_world (quiet_sim [T2; T3] "round_robin"))).1.2 in
  spread_at_most 1 [T2; T3] (usage_cache w1).
Proof.
  intros w1.
  refine (proj1 (round_robin_keeps_spread Sim 1 T2 [T3] false false
                   (sim_world (quiet_sim [T2; T3] "round_robin"))
                   (Ok (Some T2)) w1 _ _ _ _)).
  - lia.
  - intros t1 t2 u1 u2 Ht1 Ht2 Hu1 Hu2.
    repeat match goal with
           | H : _ ∈ [] |- _ => by apply elem_of_nil in H
           | H : _ ∈ _ :: _ |- _ => apply elem_of_cons in H as [?|H]
           end; subst;
      vm_compute in Hu1; vm_compute in Hu2;
      injection Hu1 as <-; injection Hu2 as <-; done.
  - by vm_compute.
Defined.

(** ** Further properties of a selection *)

Section Selections.

Context {S : Type} (C : Collaborators S).

Lemma is_pro_plan (t : Token) :
  is_pro t = true -> plan_type t = Some "chatgpt_pro"%string.
Proof.
  unfold is_pro. destruct (plan_type t) as [p|]; [|done].
  intros Hp. apply String.eqb_eq in Hp. by subst.
Qed.

Lemma pool_of_active (require_pro : bool) (active : list Token) (t : Token) :
  t ∈ (if require_pro then List.filter is_pro active else active) ->
  t ∈ active /\ (require_pro = true -> plan_type t = Some "chatgpt_pro"%string).
Proof.
  destruct require_pro; [|done].
  intros Hin. apply list_elem_of_In, filter_In in Hin as [Hin Hp].
  split; [by apply list_elem_of_In|]. intros _. by apply is_pro_plan.
Qed.

(** When no re-read of a token returned during the selection, the token
    returned is one of the listing of active tokens and has every
    capability the request asks for. *)
Theorem listed_token_meets_requirements
    (for_image_generation for_video_generation require_pro : bool)
    w (t : Token) w' evs :
  select_token C for_image_generation for_video_generation require_pro w
  = (Ok (Some t), w', evs) ->
  (forall i, EvAwait (DbGetToken i) None ∉ evs) ->
  meets_requirements for_image_generation for_video_generation require_pro t /\
  exists w1 evs1 active s2,
    renewal_pass C w = (Ok tt, w1, evs1) /\
    get_active_tokens C (ext w1) = (Ok active, s2) /\
    t ∈ active.
Proof.
  intros H Hno. apply select_token_stages in H
    as (_ & evs1 & evsf & evs2 & evs3 & r1 & w1 & Hren & -> & _ & _ & _ & _
        & _ & Ht).
  destruct Ht
    as [[Ht _]|(active & s2 & pool' & -> & Hact & -> & _ & w3 & Hvid & Hne
                & Hwork)]; [by destruct (Ht t)|].
  simpl in Hvid.
  apply workload_stage_spec in Hwork as (_ & _ & Hin); [|done].
  destruct (Hin t eq_refl) as [Hin' Himg].
  assert (t ∈ (if require_pro then List.filter is_pro active else active) /\
          (for_video_generation = true ->
           video_enabled t = true /\ sora2_supported t = true)) as [Hpool Hv].
  { destruct for_video_generation; [|by destruct Hvid as [-> _]].
    apply video_filter_spec in Hvid as (_ & _ & _ & Houts).
    destruct (Houts pool' eq_refl) as (outs & Hturns & Hevs & Hkept).
    simpl in Hkept. subst pool'.
    destruct (kept_by_a_turn _ _ _ Hturns Hin')
      as (t0 & seg & Hpool & Hseg & Hve & Hss & _ & Hk).
    assert (t = t0) as ->; [|done].
    destruct (sora2_cooldown_until t0) as [c|]; [|done].
    destruct Hk as (z & _ & Hk). destruct (c <=? z); [|done].
    exfalso. apply (Hno (token_id t0)).
    apply elem_of_app. right. apply elem_of_app. right.
    apply elem_of_app. left. rewrite Hevs.
    by eapply elem_of_concat_seg. }
  apply pool_of_active in Hpool as [Hactive Hplan].
  split; [done|]. by exists w1, evs1, active, s2.
Qed.

Lemma class_not_create_task ev :
  is_renewal_event ev = true \/ is_video_filter_event ev = true \/
  is_image_filter_event ev = true \/ is_can_use_video ev = true \/
  (exists ans, ev = EvAwait GetActiveTokens ans) ->
  is_create_task ev = false.
Proof.
  intros [H|[H|[H|[H|(ans & ->)]]]]; [| | | |done].
  all: by destruct ev as [[]| | | | | | |].
Qed.

Lemma select_by_mode_cache (tokens : list Token) (for_image for_video : bool)
    w r w' evs :
  tokens <> [] ->
  select_by_mode C tokens for_image for_video w = (r, w', evs) ->
  (exists t,
      r = Ok (Some t) /\
      evs = [EvAwait GetSchedulingMode None; EvLockAcquire; EvLockRelease;
             EvCreateTask (token_id t); EvLogInfo]) \/
  (Forall (fun ev => is_create_task ev = false) evs /\
   usage_cache w' = usage_cache w).
Proof.
  intros Hne H. unfold select_by_mode in H.
  apply bind_inv in H
    as [(mode & w1 & evs1 & evs2 & Hm & Hsel & ->)|(e & Hm & ->)].
  - unfold await in Hm.
    destruct (get_scheduling_mode C (ext w)) as [[?|?] ?]; simplify_eq.
    destruct (String.eqb mode "round_robin").
    + apply select_round_robin_spec in Hsel as (_ & t & -> & _ & ->); [|done].
      left. by exists t.
    + apply random_choice_spec in Hsel as (Hc & t & n & k & -> & _ & ->);
        [|done].
      right. split; [by repeat constructor|done].
  - unfold await in Hm.
    destruct (get_scheduling_mode C (ext w)) as [[?|?] ?]; simplify_eq.
    right. split; [by repeat constructor|done].
Qed.

Lemma pick_or_untouched_after (r : result (option Token))
    (w w1 w' : World S) evs0 evs :
  Forall (fun ev => is_create_task ev = false) evs0 ->
  usage_cache w1 = usage_cache w ->
  pick_or_untouched r w1 w' evs ->
  pick_or_untouched r w w' (evs0 ++ evs).
Proof.
  intros H0 Hc [(t & pre & -> & -> & Hpre)|[Hev Hc']].
  - left. exists t, (evs0 ++ pre). split; [done|].
    split; [by rewrite app_assoc|]. by apply Forall_app.
  - right. split; [by apply Forall_app|]. congruence.
Qed.

Lemma select_by_mode_pick (tokens : list Token) (for_image for_video : bool)
    w r w' evs :
  tokens <> [] ->
  select_by_mode C tokens for_image for_video w = (r, w', evs) ->
  pick_or_untouched r w w' evs.
Proof.
  intros Hne H.
  apply (select_by_mode_cache _ _ _ _ _ _ _ Hne) in H as [(t & -> & ->)|H].
  - left. exists t, [EvAwait GetSchedulingMode None].
    split; [done|]. split; [done|]. by repeat constructor.
  - by right.
Qed.

Lemma workload_stage_pick (for_image_generation for_video_generation : bool)
    (pool : list Token) w r w' evs :
  pool <> [] ->
  workload_stage C for_image_generation for_video_generation pool w
  = (r, w', evs) ->
  pick_or_untouched r w w' evs.
Proof.
  intros Hne H. unfold workload_stage in H.
  destruct for_image_generation;
    [|destruct for_video_generation;
      [destruct (concurrency_manager C) as [cm|]|]].
  - apply bind_inv in H
      as [(kept & w1 & evs1 & evs2 & Hf & Hsel & ->)|(e & Hf & ->)].
    + apply image_filter_spec in Hf as (Hev & Hc & _ & _).
      apply pick_or_untouched_after with w1; [|done|].
      * eapply Forall_impl; [exact Hev|]. intros ev ?.
        apply class_not_create_task. right. right. by left.
      * destruct kept as [|t0 rest] eqn:E.
        -- injection Hsel as <- <- <-. right. by split.
        -- rewrite <- E in *. eapply select_by_mode_pick; [|exact Hsel].
           by subst.
    + apply image_filter_spec in Hf as (Hev & Hc & _ & _).
      right. split; [|done]. eapply Forall_impl; [exact Hev|]. intros ev ?.
      apply class_not_create_task. right. right. by left.
  - apply bind_inv in H
      as [(kept & w1 & evs1 & evs2 & Hf & Hsel & ->)|(e & Hf & ->)].
    + apply admission_filter_spec in Hf as (Hev & Hc & _ & _).
      apply pick_or_untouched_after with w1; [|done|].
      * eapply Forall_impl; [exact Hev|]. intros ev ?.
        apply class_not_create_task. right. right. right. by left.
      * destruct kept as [|t0 rest] eqn:E.
        -- injection Hsel as <- <- <-. right. by split.
        -- rewrite <- E in *. eapply select_by_mode_pick; [|exact Hsel].
           by subst.
    + apply admission_filter_spec in Hf as (Hev & Hc & _ & _).
      right. split; [|done]. eapply Forall_impl; [exact Hev|]. intros ev ?.
      apply class_not_create_task. right. right. right. by left.
  - by eapply select_by_mode_pick.
  - by eapply select_by_mode_pick.
Qed.

(** The usage cache changes only with a round-robin pick.  A selection
    either ends with a round-robin pick, and then creates exactly one
    persistence task, for the token it returns, after everything else but
    the closing log line; or it creates no task and leaves the usage
    cache as it was, which is what happens whenever it returns [None],
    raises, or selects at random. *)
Theorem usage_cache_changes_only_with_a_pick
    (for_image_generation for_video_generation require_pro : bool)
    w r w' evs :
  select_token C for_image_generation for_video_generation require_pro w
  = (r, w', evs) ->
  pick_or_untouched r w w' evs /\
  ((forall t, r <> Ok (Some t)) -> usage_cache w' = usage_cache w) /\
  (forall i, EvCreateTask i ∈ evs ->
     exists t, r = Ok (Some t) /\ token_id t = i).
Proof.
  intros H.
  assert (pick_or_untouched r w w' evs) as Hpick.
  { unfold select_token in H.
    apply bind_inv in H
      as [([] & w1 & evs1 & evs' & Hren & H & ->)|(e & Hren & ->)].
    2:{ apply renewal_pass_spec in Hren as (Hev & Hc & _).
        right. split; [|done]. eapply Forall_impl; [exact Hev|].
        intros ev ?. apply class_not_create_task. by left. }
    apply renewal_pass_spec in Hren as (Hev1 & Hc1 & _).
    apply pick_or_untouched_after with w1; [|done|].
    { eapply Forall_impl; [exact Hev1|]. intros ev ?.
      apply class_not_create_task. by left. }
    apply bind_inv in H
      as [(active & w2 & evsf & evs'' & Hact & H & ->)|(e & Hact & ->)].
    2:{ unfold await in Hact.
        destruct (get_active_tokens C (ext w1)) as [[?|?] ?]; simplify_eq.
        right. split; [by repeat constructor|done]. }
    unfold await in Hact.
    destruct (get_active_tokens C (ext w1)) as [[active'|?] s2] eqn:Eact;
      simplify_eq.
    apply pick_or_untouched_after
      with (mkWorld s2 (usage_cache w1)); [by repeat constructor|done|].
    destruct active as [|t0 rest] eqn:E.
    { injection H as <- <- <-. right. by split. }
    rewrite <- E in *. apply plan_stage_spec in H as [Hempty Hfull].
    destruct (decide ((if require_pro then List.filter is_pro active
                       else active) = [])) as [Hp0|Hp0].
    { assert (require_pro = true) as Hrp by (destruct require_pro; by subst).
      destruct (Hempty Hrp Hp0) as (-> & -> & ->). right. by split. }
    specialize (Hfull Hp0). unfold video_stage in Hfull.
    destruct for_video_generation; [|by eapply workload_stage_pick].
    apply bind_inv in Hfull
      as [(kept & w3 & evs2 & evs3 & Hf & Hw & ->)|(e & Hf & ->)].
    - apply video_filter_spec in Hf as (Hev & Hc & _ & _).
      apply pick_or_untouched_after with w3; [|done|].
      + eapply Forall_impl; [exact Hev|]. intros ev ?.
        apply class_not_create_task. right. by left.
      + destruct kept as [|t1 rest1] eqn:E1.
        * injection Hw as <- <- <-. right. by split.
        * rewrite <- E1 in *. eapply workload_stage_pick; [|exact Hw].
          by subst.
    - apply video_filter_spec in Hf as (Hev & Hc & _ & _).
      right. split; [|done]. eapply Forall_impl; [exact Hev|]. intros ev ?.
      apply class_not_create_task. right. by left. }
  split; [done|]. split.
  - intros Hnone. destruct Hpick as [(t & pre & -> & _)|[_ Hc]]; [|done].
    by destruct (Hnone t).
  - intros i Hin. destruct Hpick as [(t & pre & -> & -> & Hpre)|[Hev _]].
    + exists t. split; [done|].
      apply elem_of_app in Hin as [Hin|Hin].
      * rewrite Forall_forall in Hpre. by specialize (Hpre _ Hin).
      * set_unfold in Hin. destruct_or?; by simplify_eq.
    + rewrite Forall_forall in Hev. by specialize (Hev _ Hin).
Qed.

Lemma selection_event_asked (for_image_generation for_video_generation : bool)
    ev :
  is_selection_event ev = true ->
  asked_for C for_image_generation for_video_generation ev.
Proof. intros H. by destruct ev as [[]| | | | | | |]. Qed.

Lemma workload_stage_asks (for_image_generation for_video_generation : bool)
    (pool : list Token) w r w' evs :
  pool <> [] ->
  workload_stage C for_image_generation for_video_generation pool w
  = (r, w', evs) ->
  Forall (asked_for C for_image_generation for_video_generation) evs.
Proof.
  intros Hne H.
  assert (forall tokens fi fv fi' fv' w0 r0 w0' evs0,
             tokens <> [] ->
             select_by_mode C tokens fi' fv' w0 = (r0, w0', evs0) ->
             Forall (asked_for C fi fv) evs0) as Hsel.
  { intros tokens fi fv fi' fv' w0 r0 w0' evs0 Hne0 Hs.
    apply select_by_mode_spec in Hs as (Hev & _); [|done].
    eapply Forall_impl; [exact Hev|]. apply selection_event_asked. }
  unfold workload_stage in H.
  destruct for_image_generation;
    [|destruct for_video_generation;
      [destruct (concurrency_manager C) as [cm|] eqn:Ecm|]].
  - apply bind_inv in H
      as [(kept & w1 & evs1 & evs2 & Hf & Hs & ->)|(e & Hf & ->)].
    + apply image_filter_spec in Hf as (Hev & _).
      apply Forall_app. split.
      * eapply Forall_impl; [exact Hev|]. intros ev Hi.
        by destruct ev as [[]| | | | | | |].
      * destruct kept as [|t0 rest] eqn:E.
        -- injection Hs as <- <- <-. constructor.
        -- rewrite <- E in *. eapply Hsel; [|exact Hs]. by subst.
    + apply image_filter_spec in Hf as (Hev & _).
      eapply Forall_impl; [exact Hev|]. intros ev Hi.
      by destruct ev as [[]| | | | | | |].
  - assert (forall evs0,
               Forall (fun ev => is_can_use_video ev = true) evs0 ->
               Forall (asked_for C false true) evs0) as Hadm.
    { intros evs0 Hev. eapply Forall_impl; [exact Hev|]. intros ev Hi.
      unfold asked_for. rewrite Ecm.
      by destruct ev as [[]| | | | | | |]. }
    apply bind_inv in H
      as [(kept & w1 & evs1 & evs2 & Hf & Hs & ->)|(e & Hf & ->)].
    + apply admission_filter_spec in Hf as (Hev & _).
      apply Forall_app. split; [by apply Hadm|].
      destruct kept as [|t0 rest] eqn:E.
      * injection Hs as <- <- <-. constructor.
      * rewrite <- E in *. eapply Hsel; [|exact Hs]. by subst.
    + apply admission_filter_spec in Hf as (Hev & _). by apply Hadm.
  - by eapply Hsel.
  - by eapply Hsel.
Qed.

(** A selection asks only what the request and the configuration call
    for: the lock and the image admission only for an image request; the
    video admission only for a video request that is not an image request,
    and only when there is a concurrency manager; a quota refresh or a
    re-read only for a video request; the listing of all tokens and the
    renewals only with the auto-refresh flag on. *)
Theorem selection_asks_only_what_is_called_for
    (for_image_generation for_video_generation require_pro : bool)
    w r w' evs :
  select_token C for_image_generation for_video_generation require_pro w
  = (r, w', evs) ->
  Forall (asked_for C for_image_generation for_video_generation) evs.
Proof.
  intros H. apply select_token_stages in H
    as (_ & evs1 & evsf & evs2 & evs3 & r1 & w1 & Hren & -> & Hev1 & Hf
        & Hev2 & Hev3 & Hfv & Ht).
  apply renewal_pass_spec in Hren as (_ & _ & _ & Hoff & _).
  repeat (apply Forall_app; split).
  - destruct (at_auto_refresh_enabled C) eqn:Eflag.
    + eapply Forall_impl; [exact Hev1|]. intros ev Hi.
      unfold asked_for. rewrite Eflag.
      by destruct ev as [[]| | | | | | |].
    + destruct (Hoff eq_refl) as (_ & _ & ->). constructor.
  - destruct Hf as [->|(ans & ->)]; [constructor|by repeat constructor].
  - destruct for_video_generation.
    + eapply Forall_impl; [exact Hev2|]. intros ev Hi.
      by destruct ev as [[]| | | | | | |].
    + rewrite (Hfv eq_refl). constructor.
  - destruct Ht as [[_ ->]|(active & s2 & pool' & _ & _ & _ & _ & w3 & _
                            & Hne & Hwork)]; [constructor|].
    by eapply workload_stage_asks.
Qed.

(** The image filter asks the admission of every token it keeps, when
    there is a concurrency manager. *)
Lemma image_filter_admission (l : list Token) acc w acc' w' evs :
  for_each (image_body C) l acc w = (Ok acc', w', evs) ->
  exists kept, acc' = acc ++ kept /\
    Forall (fun t => is_Some (concurrency_manager C) ->
                     EvAwait (CanUseImage (token_id t)) None ∈ evs) kept.
Proof.
  intros Hrun.
  eapply (for_each_outs (image_body C)
            (fun t seg o =>
               from_option
                 (fun t' => t' = t /\
                    (is_Some (concurrency_manager C) ->
                     EvAwait (CanUseImage (token_id t)) None ∈ seg))
                 True o))
    in Hrun as (outs & Houts & -> & ->).
  - exists (omap snd outs). split; [done|]. clear -Houts.
    induction Houts as [|t [seg [t'|]] l outs Ht _ IH]; simpl in *.
    + constructor.
    + destruct Ht as [-> Hev]. constructor.
      * intros Hcm. apply elem_of_app. left. by apply Hev.
      * eapply Forall_impl; [exact IH|]. intros t0 Ht0 Hcm.
        apply elem_of_app. right. by apply Ht0.
    + eapply Forall_impl; [exact IH|]. intros t0 Ht0 Hcm.
      apply elem_of_app. right. by apply Ht0.
  - intros x a w0 a' w0' evs0 Hb.
    apply image_body_spec in Hb as (_ & _ & _ & Hb).
    destruct (Hb a' eq_refl) as (o & Ho & ->). exists o. split; [|done].
    destruct o as [t'|]; [|done]. simpl in *.
    destruct Ho as (-> & _ & s1 & _ & Hev). split; [done|].
    destruct (concurrency_manager C) as [cm|].
    + intros _. destruct Hev as (s2 & _ & ->). apply elem_of_cons. right.
      by left.
    + by intros [? ?].
Qed.

(** A token returned for an image request has the image flag; its lock
    was asked, and the query returned, during the selection; and so was
    its image admission when there is a concurrency manager. *)
Theorem image_request_asks_lock_and_admission
    (for_video_generation require_pro : bool) w (t : Token) w' evs :
  select_token C true for_video_generation require_pro w
  = (Ok (Some t), w', evs) ->
  image_enabled t = true /\
  EvAwait (IsLocked (token_id t)) None ∈ evs /\
  (is_Some (concurrency_manager C) ->
   EvAwait (CanUseImage (token_id t)) None ∈ evs).
Proof.
  intros H. apply select_token_stages in H
    as (_ & evs1 & evsf & evs2 & evs3 & r1 & w1 & Hren & -> & _ & _ & _ & _
        & _ & Ht).
  destruct Ht
    as [[Ht _]|(active & s2 & pool' & _ & _ & _ & _ & w3 & _ & _ & Hwork)];
    [by destruct (Ht t)|].
  apply image_branch_spec in Hwork as (_ & evs3a & evs3b & -> & _ & _ & Hk).
  destruct (Hk _ eq_refl) as (kept & w4 & Himg & Hin & _ & Hi & Hlock & _).
  split; [done|].
  assert (forall ev, ev ∈ evs3a ->
            ev ∈ evs1 ++ evsf ++ evs2 ++ evs3a ++ evs3b) as Hsub.
  { intros ev Hev. rewrite !elem_of_app. right. right. right. by left. }
  split; [by apply Hsub|]. intros Hcm. apply Hsub.
  apply image_filter_admission in Himg as (kept' & Heq & Hall).
  simpl in Heq. subst kept'. rewrite Forall_forall in Hall.
  by apply Hall.
Qed.

End Selections.

Lemma listed_token_meets_requirements_witness :
  let x := run_select (sim false true) true true false busy_sim in
  x.1.1 = Ok (Some T2) /\ meets_requirements true true false T2.
Proof.
  intros x. split; [by vm_compute|].
  refine (proj1 (listed_token_meets_requirements (sim false true)
                   true true false (sim_world busy_sim) T2 x.1.2 x.2 _ _)).
  - by vm_compute.
  - intros i Hin.
    assert (Forall (fun ev => is_quota_call ev = false) x.2) as Hq.
    { apply (bool_decide_unpack _). by vm_compute. }
    rewrite Forall_forall in Hq. by specialize (Hq _ Hin).
Defined.

Lemma usage_cache_changes_only_with_a_pick_witness :
  let x := run_select (sim false false) false true false refreshed_sim in
  pick_or_untouched x.1.1 (sim_world refreshed_sim) x.1.2 x.2.
Proof.
  intros x.
  refine (proj1 (usage_cache_changes_only_with_a_pick (sim false false)
                   false true false (sim_world refreshed_sim)
                   x.1.1 x.1.2 x.2 _)).
  by vm_compute.
Defined.

Lemma selection_asks_only_what_is_called_for_witness :
  let x := run_select (sim false true) false true false busy_sim in
  Forall (asked_for (sim false true) false true) x.2.
Proof.
  intros x.
  refine (selection_asks_only_what_is_called_for (sim false true)
            false true false (sim_world busy_sim) x.1.1 x.1.2 x.2 _).
  by vm_compute.
Defined.

Lemma image_request_asks_lock_and_admission_witness :
  let x := run_select (sim false true) true false false busy_sim in
  image_enabled T2 = true /\
  EvAwait (IsLocked (token_id T2)) None ∈ x.2 /\
  EvAwait (CanUseImage (token_id T2)) None ∈ x.2.
Proof.
  intros x.
  destruct (image_request_asks_lock_and_admission (sim false true)
              false false (sim_world busy_sim) T2 x.1.2 x.2)
    as (Hi & Hl & Ha); [by vm_compute|].
  split; [done|]. split; [done|]. apply Ha. by eexists.
Defined.

(** ** Video requests *)

Section VideoRequests.

Context {S : Type} (C : Collaborators S).

(** The video admission filter asks the admission of every token it
    keeps. *)
Lemma admission_filter_asked (cm : ConcurrencyManager S) (l : list Token)
    acc w acc' w' evs :
  for_each (admission_body cm) l acc w = (Ok acc', w', evs) ->
  exists kept, acc' = acc ++ kept /\
    Forall (fun t => EvAwait (CanUseVideo (token_id t)) None ∈ evs) kept.
Proof.
  intros Hrun.
  eapply (for_each_outs (admission_body cm)
            (fun t seg o =>
               from_option
                 (fun t' => t' = t /\
                            EvAwait (CanUseVideo (token_id t)) None ∈ seg)
                 True o))
    in Hrun as (outs & Houts & -> & ->).
  - exists (omap snd outs). split; [done|]. clear -Houts.
    induction Houts as [|t [seg [t'|]] l outs Ht _ IH]; simpl in *.
    + constructor.
    + destruct Ht as [-> Hev]. constructor.
      * apply elem_of_app. by left.
      * eapply Forall_impl; [exact IH|]. intros t0 Ht0.
        apply elem_of_app. by right.
    + eapply Forall_impl; [exact IH|]. intros t0 Ht0.
      apply elem_of_app. by right.
  - intros x a w0 a' w0' evs0 Hb. unfold admission_body in Hb.
    run_body Hb.
    + exists (Some x). split; [|done]. split; [done|]. by left.
    + exists None. split; [done|]. by rewrite app_nil_r.
Qed.

(** A token returned for a video request that is not an image request,
    with a concurrency manager configured, had its video admission asked,
    and the query returned, during the selection. *)
Theorem video_request_asks_admission (require_pro : bool)
    w (t : Token) w' evs :
  is_Some (concurrency_manager C) ->
  select_token C false true require_pro w = (Ok (Some t), w', evs) ->
  EvAwait (CanUseVideo (token_id t)) None ∈ evs.
Proof.
  intros [cm Hcm] H. apply select_token_stages in H
    as (_ & evs1 & evsf & evs2 & evs3 & r1 & w1 & Hren & -> & _ & _ & _ & _
        & _ & Ht).
  destruct Ht
    as [[Ht _]|(active & s2 & pool' & _ & _ & _ & _ & w3 & _ & Hne & Hwork)];
    [by destruct (Ht t)|].
  rewrite !elem_of_app. right. right. right.
  unfold workload_stage in Hwork. rewrite Hcm in Hwork.
  apply bind_inv in Hwork
    as [(kept & w4 & evs3a & evs3b & Hf & Hsel & ->)|(e & _ & [=])].
  apply admission_filter_asked in Hf as (kept' & Heq & Hall).
  simpl in Heq. subst kept'.
  destruct kept as [|t0 rest] eqn:E; [by injection Hsel|].
  rewrite <- E in *.
  apply select_by_mode_spec in Hsel as (_ & _ & Hin); [|by subst].
  destruct (Hin _ eq_refl) as (t' & [= <-] & Hin').
  apply elem_of_app. left. rewrite Forall_forall in Hall. by apply Hall.
Qed.

(** When every clock reading of a selection for video gives the same
    instant, the time of the call, the token returned has no cooldown
    beyond that instant, and it was kept by the turn of the video loop on
    a candidate of the pool, a token of the listing with the video flag
    and Sora2 support.  Either that candidate was listed without a
    cooldown, and is returned as listed, its turn awaiting nothing; or it
    was listed with a cooldown not beyond that instant, its turn read the
    clock, awaited the quota refresh, then awaited the re-read, both of
    which returned, and the token returned is the row the re-read
    returned.  So a candidate listed with a cooldown beyond that instant
    is not returned. *)
Theorem cooldown_at_the_time_of_the_call
    (for_image_generation require_pro : bool) (z0 : Z)
    w (t' : Token) w' evs :
  select_token C for_image_generation true require_pro w
  = (Ok (Some t'), w', evs) ->
  (forall z, EvNow z ∈ evs -> z = z0) ->
  cooldown_over_at z0 t' /\
  exists w1 evs1 active s2 evs3 t s0,
    renewal_pass C w = (Ok tt, w1, evs1) /\
    get_active_tokens C (ext w1) = (Ok active, s2) /\
    let pool := base_pool require_pro active in
    let turns := filter_turns (video_turn_run C) pool s2 in
    evs = evs1 ++ [EvAwait GetActiveTokens None]
          ++ concat turns.*1.*1 ++ evs3 /\
    t ∈ pool /\ video_enabled t = true /\ sora2_supported t = true /\
    video_turn_run C t s0 ∈ turns /\
    match sora2_cooldown_until t with
    | None => t' = t /\ video_turn_run C t s0 = ([], Kept t, s0)
    | Some c =>
        c <= z0 /\
        exists s1 s2' s3 rest,
          now C s0 = (z0, s1) /\
          refresh_sora2_remaining_if_cooldown_expired C (token_id t) s1
          = (Ok tt, s2') /\
          get_token C (token_id t) s2' = (Ok (Some t'), s3) /\
          (video_turn_run C t s0).1.1
          = [EvNow z0; EvAwait (RefreshSora2Remaining (token_id t)) None;
             EvAwait (DbGetToken (token_id t)) None] ++ rest /\
          Forall (fun ev => is_await ev = false) rest /\
          (video_turn_run C t s0).1.2 = Kept t'
    end.
Proof.
  intros H Hz. apply select_token_video_turns in H
    as (r1 & w1 & evs1 & Hren
        & [(e & _ & [=] & _)
          |[(e & s2 & _ & _ & [=] & _)
           |(active & s2 & evs3 & -> & Hact & H)]]).
  simpl in H. destruct H as (Hevs & _ & _ & Hk).
  destruct (Hk t' eq_refl) as (t & s0 & Hpool & Hel & Hkept).
  assert (forall ev, ev ∈ (video_turn_run C t s0).1.1 -> ev ∈ evs) as Hsub.
  { intros ev Hev. rewrite Hevs. apply elem_of_app. right.
    apply elem_of_cons. right. apply elem_of_app. left.
    eapply elem_of_concat_seg; [|exact Hev].
    by do 2 apply list_elem_of_fmap_2. }
  destruct (video_turn_kept C _ _ _ Hkept) as (Hv & Hs & Hcool).
  split.
  { unfold cooldown_over_at.
    destruct (sora2_cooldown_until t') as [c'|]; [|done].
    destruct Hcool as (z2 & Hlast & Hle). apply last_Some_elem_of in Hlast.
    by rewrite <- (Hz z2 (Hsub _ Hlast)). }
  exists w1, evs1, active, s2, evs3, t, s0. simpl.
  split; [done|]. split; [done|]. split; [done|]. split; [done|].
  split; [done|]. split; [done|]. split; [done|].
  destruct (sora2_cooldown_until t) as [c|] eqn:Ec.
  - destruct (now C s0) as [z s1] eqn:Hnow.
    destruct (Z.le_gt_cases c z) as [Hle|Hgt].
    + destruct (video_turn_refresh C t s0 s1 c z Hv Hs Ec Hnow Hle)
        as (ans & s2' & Href
            & [(e & -> & Hx)
              |(row & s3 & rest & -> & Hget & Hseg & Hrest & _ & _ & Hrow)]).
      * by rewrite Hx in Hkept.
      * specialize (Hrow _ Hkept). subst row.
        assert (z = z0) as -> by (apply Hz, Hsub; rewrite Hseg; by left).
        split; [done|]. by exists s1, s2', s3, rest.
    + destruct (video_turn_no_refresh C t s0 s1 c z Hv Hs Ec Hnow Hgt)
        as (z2 & s2' & Hnow2 & Hx).
      rewrite Hx in Hkept, Hsub. simpl in Hkept, Hsub.
      destruct (z2 <? c) eqn:E; [done|]. apply Z.ltb_ge in E.
      assert (z = z0) by (apply Hz, Hsub; by left).
      assert (z2 = z0) by (apply Hz, Hsub; right; by left).
      lia.
  - unfold video_turn_run in *. rewrite Hv, Hs, Ec in *. simpl in *.
    injection Hkept as <-. by split.
Qed.

End VideoRequests.

Lemma video_request_asks_admission_witness :
  let x := run_select (sim false true) false true false busy_sim in
  x.1.1 = Ok (Some T2) /\ EvAwait (CanUseVideo (token_id T2)) None ∈ x.2.
Proof.
  intros x. split; [by vm_compute|].
  refine (video_request_asks_admission (sim false true) false
            (sim_world busy_sim) T2 x.1.2 x.2 _ _).
  - by eexists.
  - by vm_compute.
Defined.

Lemma cooldown_at_the_time_of_the_call_witness :
  let x := run_select (sim false false) false true false refreshed_sim in
  x.1.1 = Ok (Some refreshed_row) /\
  cooldown_over_at 1000 refreshed_row /\
  exists t s1 s2,
    t ∈ sim_active refreshed_sim /\
    get_token (sim false false) (token_id t) s1 = (Ok (Some refreshed_row), s2).
Proof.
  intros x. split; [by vm_compute|].
  destruct (cooldown_at_the_time_of_the_call (sim false false)
              false false 1000 (sim_world refreshed_sim) refreshed_row
              x.1.2 x.2)
    as (Hover & w1 & evs1 & active & s2 & evs3 & t & s0 & Hren & Hact & H).
  - by vm_compute.
  - intros z Hin.
    assert (Forall (fun ev => match ev with EvNow z' => z' = 1000 | _ => True end)
                   x.2) as Hq.
    { vm_compute. repeat constructor. }
    rewrite Forall_forall in Hq. by specialize (Hq _ Hin).
  - split; [exact Hover|].
    vm_compute in Hren. injection Hren as <- <-.
    vm_compute in Hact. injection Hact as <- <-.
    simpl in H. destruct H as (_ & Hpool & _ & _ & Hel & Hc).
    apply elem_of_cons in Hel as [Hel|Hel].
    + assert (t = cooling_token) as ->.
      { repeat match goal with
               | H : _ ∈ _ :: _ |- _ => apply elem_of_cons in H as [->|H]
               | H : _ ∈ [] |- _ => by apply elem_of_nil in H
               end; [done|].
        by vm_compute in Hel. }
      simpl in Hc. destruct Hc as (_ & s1 & s2' & s3 & rest & _ & _ & Hget & _).
      exists cooling_token, s2', s3. split; [by left|done].
    + exists cooling_token, refreshed_sim, refreshed_sim.
      split; [by left|]. by vm_compute.
Defined.
